(** * cifparse: the group-aware deduplicating loader

    A shallow embedding of [cifparse/functions/dedup.py] and of the statement
    derivation of [cifparse/records/table_base.py], with the properties the
    specification states about them.

    Python values are modelled by [value], dictionaries by insertion-ordered
    association lists, raised exceptions by the [Raise] outcome of [result],
    and the sqlite cursor by a state-and-exception monad over [store]. *)

From Stdlib Require Import List String Ascii ZArith Bool Arith Lia.
Import ListNotations.
Local Open Scope string_scope.
Local Open Scope list_scope.

Set Implicit Arguments.

(** ** Python values and exceptions *)

(** The objects a row carries: [None], a [str] or an [int]. *)
Inductive value : Type :=
| VNone
| VStr (s : string)
| VInt (z : Z).

Definition value_eqb (a b : value) : bool :=
  match a, b with
  | VNone, VNone => true
  | VStr s, VStr t => String.eqb s t
  | VInt x, VInt y => Z.eqb x y
  | _, _ => false
  end.

(** Python truthiness of a value. *)
Definition truthy (v : value) : bool :=
  match v with
  | VNone => false
  | VStr s => negb (String.eqb s "")
  | VInt z => negb (Z.eqb z 0)
  end.

Definition is_none (v : value) : bool :=
  match v with VNone => true | _ => false end.

(** The exceptions the code can raise, plus [SchemaError], which the
    specification names. *)
Inductive exn : Type :=
| ValueError
| KeyError
| IndexError
| TypeError
| AttributeError
| ZeroDivisionError
| OperationalError
| ProgrammingError
| IntegrityError
| SchemaError.

Inductive result (A : Type) : Type :=
| Ok (a : A)
| Raise (e : exn).
Arguments Ok {A} a.
Arguments Raise {A} e.

Definition rbind {A B} (r : result A) (k : A -> result B) : result B :=
  match r with
  | Ok a => k a
  | Raise e => Raise e
  end.

(** [[f(x) for x in xs]] where [f] may raise. *)
Fixpoint rmap {A B} (f : A -> result B) (xs : list A) : result (list B) :=
  match xs with
  | [] => Ok []
  | x :: xs' =>
      rbind (f x) (fun y => rbind (rmap f xs') (fun ys => Ok (y :: ys)))
  end.

(** ** Strings *)

Module Str.

(** [needle in hay]. *)
Fixpoint contains (needle hay : string) : bool :=
  String.prefix needle hay
  || match hay with
     | EmptyString => false
     | String _ rest => contains needle rest
     end.

Fixpoint rev_acc (s acc : string) : string :=
  match s with
  | EmptyString => acc
  | String c rest => rev_acc rest (String c acc)
  end.

Definition rev (s : string) : string := rev_acc s "".

(** [s.endswith(suffix)]. *)
Definition endswith (s suffix : string) : bool :=
  String.prefix (rev suffix) (rev s).

(** [s[n:]]. *)
Fixpoint drop (n : nat) (s : string) : string :=
  match n, s with
  | O, _ => s
  | S _, EmptyString => EmptyString
  | S k, String _ rest => drop k rest
  end.

(** [s[:-1]]. *)
Fixpoint drop_last (s : string) : string :=
  match s with
  | EmptyString => EmptyString
  | String c EmptyString => EmptyString
  | String c rest => String c (drop_last rest)
  end.

(** [s[-1]] of a non-empty string. *)
Fixpoint last (s : string) : option ascii :=
  match s with
  | EmptyString => None
  | String c EmptyString => Some c
  | String _ rest => last rest
  end.

Definition of_char (c : ascii) : string := String c EmptyString.

(** [s.replace(pat, rep)] for a non-empty [pat]: left to right, without
    overlap.  [skip] counts the characters of a match still to be passed. *)
Fixpoint replace_from (pat rep s : string) (skip : nat) : string :=
  match s with
  | EmptyString => EmptyString
  | String c rest =>
      match skip with
      | S k => replace_from pat rep rest k
      | O =>
          if String.prefix pat s
          then rep ++ replace_from pat rep rest (String.length pat - 1)%nat
          else String c (replace_from pat rep rest 0)
      end
  end.

Definition replace (s pat rep : string) : string :=
  replace_from pat rep s 0.

(** [s.split(sep)[0]] for a non-empty [sep]. *)
Fixpoint before (sep s : string) : string :=
  if String.prefix sep s then EmptyString
  else match s with
       | EmptyString => EmptyString
       | String c rest => String c (before sep rest)
       end.

(** ASCII upper-casing, as sqlite's [LIKE] folds case. *)
Definition upper_char (c : ascii) : ascii :=
  let n := nat_of_ascii c in
  if (Nat.leb 97 n && Nat.leb n 122)%bool then ascii_of_nat (n - 32)%nat else c.

Fixpoint upper (s : string) : string :=
  match s with
  | EmptyString => EmptyString
  | String c rest => String (upper_char c) (upper rest)
  end.

End Str.

(** ** Dictionaries *)

(** A Python [dict] with keys of type [K]: an association list in insertion
    order.  Assigning to a present key keeps its position. *)
Section Dict.
Variables K V : Type.
Variable keq : K -> K -> bool.

Fixpoint dict_get (d : list (K * V)) (k : K) : option V :=
  match d with
  | [] => None
  | (k', v) :: d' => if keq k' k then Some v else dict_get d' k
  end.

Fixpoint dict_set (d : list (K * V)) (k : K) (v : V) : list (K * V) :=
  match d with
  | [] => [(k, v)]
  | (k', v') :: d' =>
      if keq k' k then (k', v) :: d' else (k', v') :: dict_set d' k v
  end.

Definition dict_keys (d : list (K * V)) : list K := map fst d.
Definition dict_values (d : list (K * V)) : list V := map snd d.

(** [dict(zip(ks, vs))]. *)
Definition dict_of_zip (ks : list K) (vs : list V) : list (K * V) :=
  fold_left (fun d kv => dict_set d (fst kv) (snd kv)) (combine ks vs) [].
End Dict.

(** An incoming row, [Mapping[str, object]]. *)
Definition pyrow : Type := list (string * value).

(** [r[c]], raising [KeyError] when [c] is missing. *)
Definition row_item (r : pyrow) (c : string) : result value :=
  match dict_get String.eqb r c with
  | Some v => Ok v
  | None => Raise KeyError
  end.

(** [r.get(c)]. *)
Definition row_get (r : pyrow) (c : string) : value :=
  match dict_get String.eqb r c with
  | Some v => v
  | None => VNone
  end.

Fixpoint list_eqb {A} (eqb : A -> A -> bool) (xs ys : list A) : bool :=
  match xs, ys with
  | [], [] => true
  | x :: xs', y :: ys' => eqb x y && list_eqb eqb xs' ys'
  | _, _ => false
  end.

(** A group key: the tuple of a row's values on the group fields. *)
Definition key : Type := list value.
Definition key_eqb : key -> key -> bool := list_eqb value_eqb.

(** ** The store behind the cursor *)

(** A comparison of one column with one bound parameter. *)
Inductive cmp : Type := CmpEq | CmpIs.

Record cond : Type := { cond_col : string; cond_op : cmp }.

(** A [SELECT * FROM t WHERE ...] statement: the text given to
    [cur.execute], the conjuncts of its [WHERE] clause (one [?] each) and,
    for the name fallback, the column of a trailing
    [AND <col> LIKE '%' || ? || '%']. *)
Record select : Type := {
  sel_text : string;
  sel_where : list cond;
  sel_like : option string
}.

(** What the code sends to the store, in order. *)
Inductive event : Type :=
| EvPragma (text : string)
| EvSelect (text : string) (params : list value)
| EvInsert (text : string) (rows : list pyrow).

(** The part of the database a load call works on: the rows of the target
    table, its UNIQUE indexes (the primary key among them) by name and
    column tuple, and the statements issued so far.  A column a stored row does not
    list holds NULL. *)
Record store : Type := {
  st_rows : list pyrow;
  st_uniques : list (string * list string);
  st_log : list event
}.

Definition log_event (e : event) (s : store) : store :=
  {| st_rows := st_rows s; st_uniques := st_uniques s;
     st_log := st_log s ++ [e] |}.

Definition set_rows (rows : list pyrow) (s : store) : store :=
  {| st_rows := rows; st_uniques := st_uniques s; st_log := st_log s |}.

(** sqlite's comparison of a stored value [x] with a parameter [p]:
    [=] is never true on NULL, [IS] is equality that treats NULL as a
    value. *)
Definition cmp_holds (op : cmp) (x p : value) : bool :=
  match op with
  | CmpEq => negb (is_none x) && negb (is_none p) && value_eqb x p
  | CmpIs => value_eqb x p
  end.

Fixpoint where_holds (conds : list cond) (params : list value) (x : pyrow)
  : bool :=
  match conds, params with
  | [], _ => true
  | c :: conds', p :: params' =>
      cmp_holds (cond_op c) (row_get x (cond_col c)) p
      && where_holds conds' params' x
  | _ :: _, [] => false
  end.

(** [x LIKE '%' || p || '%'] on text, folding ASCII case; NULL on either
    side is no match.  Wildcards inside [p] are not modelled. *)
Definition like_holds (x p : value) : bool :=
  match x, p with
  | VStr xs, VStr ps => Str.contains (Str.upper ps) (Str.upper xs)
  | _, _ => false
  end.

Definition select_holds (q : select) (params : list value) (x : pyrow)
  : bool :=
  where_holds (sel_where q) params x
  && match sel_like q with
     | None => true
     | Some col =>
         like_holds (row_get x col)
                    (nth (List.length (sel_where q)) params VNone)
     end.

Definition placeholders (q : select) : nat :=
  List.length (sel_where q)
  + match sel_like q with None => 0 | Some _ => 1 end.

(** The cursor monad: a statement changes the store and returns or raises. *)
Definition M (A : Type) : Type := store -> result A * store.

Definition ret {A} (a : A) : M A := fun s => (Ok a, s).
Definition raise {A} (e : exn) : M A := fun s => (Raise e, s).
Definition lift {A} (r : result A) : M A := fun s => (r, s).

Definition bind {A B} (m : M A) (k : A -> M B) : M B :=
  fun s =>
    match m s with
    | (Ok a, s') => k a s'
    | (Raise e, s') => (Raise e, s')
    end.

Notation "x <- m ;; k" := (bind m (fun x => k))
  (at level 61, m at next level, right associativity).
Notation "m ;;; k" := (bind m (fun _ => k))
  (at level 61, right associativity).

(** [cur.execute(sql, params)] of a select, giving the rows it would fetch.
    A [WHERE] clause without a first conjunct ([WHERE  LIMIT 1],
    [WHERE  AND ...]) is a syntax error; a wrong number of bindings is a
    [ProgrammingError]. *)
Definition execute_select (q : select) (params : list value)
  : M (list pyrow) :=
  fun s =>
    let s' := log_event (EvSelect (sel_text q) params) s in
    match sel_where q with
    | [] => (Raise OperationalError, s')
    | _ :: _ =>
        if Nat.eqb (List.length params) (placeholders q)
        then (Ok (filter (select_holds q params) (st_rows s)), s')
        else (Raise ProgrammingError, s')
    end.

(** [.fetchone()]. *)
Definition fetchone (rows : list pyrow) : option pyrow := hd_error rows.

(** Two stored rows collide on a UNIQUE index when they agree on all its
    columns and none of them is NULL. *)
Definition collide_on (cols : list string) (x y : pyrow) : bool :=
  forallb (fun c => negb (is_none (row_get x c))
                    && value_eqb (row_get x c) (row_get y c)) cols.

Definition violates (uniques : list (list string)) (rows : list pyrow)
           (x : pyrow) : bool :=
  existsb (fun cols => existsb (collide_on cols x) rows) uniques.

(** The row stored for the named placeholders [:c], one per column of
    [cols]; a row that lacks one of them cannot be bound. *)
Definition bind_named (cols : list string) (r : pyrow) : result pyrow :=
  rmap (fun c => match dict_get String.eqb r c with
                 | Some v => Ok (c, v)
                 | None => Raise ProgrammingError
                 end) cols.

(** [INSERT] of the rows one after the other, counting those that land;
    the second component is the table when the statement ends or raises.
    A row that violates a UNIQUE index is passed over under [OR IGNORE]
    and raises [IntegrityError] otherwise. *)
Fixpoint insert_rows (or_ignore : bool) (cols : list string)
         (rows : list pyrow) (uniques : list (list string))
         (db : list pyrow) (count : nat) : result nat * list pyrow :=
  match rows with
  | [] => (Ok count, db)
  | r :: rows' =>
      match bind_named cols r with
      | Raise e => (Raise e, db)
      | Ok x =>
          if violates uniques db x
          then if or_ignore
               then insert_rows or_ignore cols rows' uniques db count
               else (Raise IntegrityError, db)
          else insert_rows or_ignore cols rows' uniques (db ++ [x]) (S count)
      end
  end.

(** [cur.executemany(insert_sql, rows).rowcount]. *)
Definition executemany_insert (or_ignore : bool) (text : string)
           (cols : list string) (rows : list pyrow) : M nat :=
  fun s =>
    let s' := log_event (EvInsert text rows) s in
    let (r, db) :=
      insert_rows or_ignore cols rows (map snd (st_uniques s)) (st_rows s) 0 in
    (r, set_rows db s').

(** A stored row joins a key [USING] the columns when it equals the key
    on each of them, with [=]. *)
Definition using_eq (cols : list string) (k : key) (x : pyrow) : bool :=
  forallb (fun cv => cmp_holds CmpEq (row_get x (fst cv)) (snd cv))
          (combine cols k).

(** [cur.execute] of [WITH keys(cols) AS (VALUES ...) SELECT cols FROM keys
    JOIN t USING (cols)]: the key of every pair of a listed key and a
    stored row that join. *)
Definition execute_join (text : string) (cols : list string)
           (chunk : list key) : M (list key) :=
  fun s =>
    (Ok (flat_map (fun k => map (fun _ => k)
                                (filter (using_eq cols k) (st_rows s)))
                  chunk),
     log_event (EvSelect text (List.concat chunk)) s).

(** [with cur.connection: body]: commit when the body returns, roll the
    rows back and re-raise when it raises. *)
Definition with_connection {A} (body : M A) : M A :=
  fun s =>
    match body s with
    | (Ok a, s') => (Ok a, s')
    | (Raise e, s') => (Raise e, set_rows (st_rows s) s')
    end.

(** [for x in xs: body(x)]. *)
Fixpoint for_each {A} (body : A -> M unit) (xs : list A) : M unit :=
  match xs with
  | [] => ret tt
  | x :: xs' => body x ;;; for_each body xs'
  end.

(** ** functions/dedup.py *)

Module Dedup.

(** [fields.index(pivot)]. *)
Fixpoint index (fields : list string) (pivot : string) : result nat :=
  match fields with
  | [] => Raise ValueError
  | f :: rest =>
      if String.eqb f pivot then Ok 0
      else rbind (index rest pivot) (fun i => Ok (S i))
  end.

Definition fields_before (fields : list string) (pivot : string)
  : result (list string) :=
  match index fields pivot with
  | Ok i => Ok (firstn i fields)
  | Raise ValueError => Ok fields
  | Raise e => Raise e
  end.

(** The default [pivot='seq_no']. *)
Definition fields_before_default (fields : list string)
  : result (list string) :=
  fields_before fields "seq_no".

(** The UNIQUE indexes of the table, read through two PRAGMAs. *)
Definition _unique_indexes (table : string) : M (list (list string)) :=
  fun s =>
    let s1 := log_event (EvPragma ("PRAGMA index_list('" ++ table ++ "')")) s in
    (Ok (map snd (st_uniques s)),
     fold_left
       (fun acc idx =>
          log_event (EvPragma ("PRAGMA index_info('" ++ fst idx ++ "')")) acc)
       (st_uniques s) s1).

Definition op_text (op : cmp) : string :=
  match op with CmpIs => "IS" | CmpEq => "=" end.

(** One entry of [where_parts]: [f"{col} {op} ?"]. *)
Definition where_part (c : cond) : string :=
  cond_col c ++ " " ++ op_text (cond_op c) ++ " ?".

(** The loop of [build_select_one] over [zip(columns, values)]: a [None]
    value is passed over by the [continue], before [op] is chosen. *)
Fixpoint select_parts (cvs : list (string * value))
  : list cond * list value :=
  match cvs with
  | [] => ([], [])
  | (col, val) :: rest =>
      let (where_parts, final_values) := select_parts rest in
      if is_none val then (where_parts, final_values)
      else
        let op := if is_none val then CmpIs else CmpEq in
        ({| cond_col := col; cond_op := op |} :: where_parts,
         val :: final_values)
  end.

Definition build_select_one (table : string) (columns : list string)
           (values : list value) : result (select * list value) :=
  if negb (Nat.eqb (List.length columns) (List.length values))
  then Raise ValueError
  else
    let (where_parts, final_values) := select_parts (combine columns values) in
    Ok ({| sel_text := ("SELECT * FROM " ++ table ++ " WHERE "
                        ++ String.concat " AND " (map where_part where_parts)
                        ++ " LIMIT 1")%string;
           sel_where := where_parts;
           sel_like := None |},
        final_values).

(** *** The candidate keys of a group *)

Definition alphabetToPhoentic (c : ascii) : option string :=
  match Str.of_char c with
  | "A" => Some "ALPHA"
  | "B" => Some "BRAVO"
  | "C" => Some "CHARLIE"
  | "D" => Some "DELTA"
  | "E" => Some "ECHO"
  | "F" => Some "FOXTROT"
  | "G" => Some "GOLF"
  | "H" => Some "HOTEL"
  | "I" => Some "INDIA"
  | "J" => Some "JULIETT"
  | "K" => Some "KILO"
  | "L" => Some "LIMA"
  | "M" => Some "MIKE"
  | "N" => Some "NOVEMBER"
  | "O" => Some "OSCAR"
  | "P" => Some "PAPA"
  | "Q" => Some "QUEBEC"
  | "R" => Some "ROMEO"
  | "S" => Some "SIERRA"
  | "T" => Some "TANGO"
  | "U" => Some "UNIFORM"
  | "V" => Some "VICTOR"
  | "W" => Some "WHISKEY"
  | "X" => Some "XRAY"
  | "Y" => Some "YANKEE"
  | "Z" => Some "ZULU"
  | _ => None
  end.

(** [alphabetToPhoentic.get(c, c)]. *)
Definition phonetic_or_self (c : ascii) : string :=
  match alphabetToPhoentic c with
  | Some w => w
  | None => Str.of_char c
  end.

Definition char_is (c : ascii) (s : string) : bool :=
  String.eqb (Str.of_char c) s.

(** [tuple(r[c] for c in group_fields)]. *)
Definition group_key (group_fields : list string) (r : pyrow) : result key :=
  rmap (row_item r) group_fields.

Section Expand.
(** [gdict], the group's tuple [gkey] and the chosen [id_field]. *)
Variable gdict : list (string * value).
Variable gkey : key.
Variable id_field : string.

(** [copy = gdict.copy(); copy[id_field] = v; list(copy.values())]:
    every [copy] of the source is [gdict] with the identifier
    replaced. *)
Definition with_id (v : string) : key :=
  dict_values (dict_set String.eqb gdict id_field (VStr v)).

(** Lines 260-287: the suffix letter of [_id], applied to the
    identifier [cur] that [copy] holds after the prefix steps. *)
Definition expand_suffix (_id cur : string) : result (list key) :=
  match Str.last _id with
  | None => Raise IndexError
  | Some l =>
      let stem := Str.drop_last cur in
      if char_is l "N" then Ok [with_id (stem ++ " NORTH")%string]
      else if char_is l "E" then Ok [with_id (stem ++ " EAST")%string]
      else if char_is l "W" then Ok [with_id (stem ++ " WEST")%string]
      else if char_is l "S" then Ok [with_id (stem ++ " SOUTH")%string]
      else
        let spelled := (stem ++ " " ++ phonetic_or_self l)%string in
        match nth_error gkey 1 with
        | None => Raise IndexError
        | Some area =>
            if value_eqb area (VStr "USA")
            then Ok [with_id spelled; with_id (Str.drop_last spelled)]
            else Ok [with_id spelled]
        end
  end.

(** Lines 289-300: the HIH / HIGH / LOW spellings inside a prefixed
    identifier. *)
Definition expand_level (_id : string) : list key :=
  (if Str.contains "HIH" _id
   then [with_id (Str.replace _id "HIH" " HIGH")] else [])
  ++ (if Str.contains "HIGH" _id
      then [with_id (Str.replace _id "HIGH" " HIGH")]
      else if Str.contains "LOW" _id
           then [with_id (Str.replace _id "LOW" " LOW")]
           else []).

(** Lines 250-309 for a string identifier: the keys appended to
    [gkeys]. *)
Definition expand_id (_id : string) : result (list key) :=
  match _id with
  | EmptyString => Raise IndexError
  | String c0 rest =>
      if char_is c0 "K" || char_is c0 "S" then
        let stripped :=
          match rest with
          | String c1 rest2 =>
              if char_is c1 "S" || char_is c1 "R" || char_is c1 "A"
                 || char_is c1 "P" || char_is c1 "W"
              then Some rest2 else None
          | EmptyString => None
          end in
        let prefix_keys :=
          with_id rest
          :: match stripped with Some r2 => [with_id r2] | None => [] end in
        let cur := match stripped with Some r2 => r2 | None => rest end in
        rbind (expand_suffix _id cur) (fun suffix_keys =>
        Ok (prefix_keys ++ suffix_keys ++ expand_level _id))
      else if Str.contains "HIH" _id
           then Ok [with_id (Str.replace _id "HIH" " HIGH")]
      else if Str.contains "LOW" _id
           then Ok [with_id (Str.replace _id "LOW" " LOW")]
      else Ok []
  end.
End Expand.

(** What the pre-check of one group works with: [gkeys], and
    [id_field], [name_field], [_name] once the restrictive branch has
    bound them ([id_field] stays a list otherwise). *)
Record candidates : Type := {
  gkeys : list key;
  id_field_str : option string;
  name_field : option string;
  _name : value
}.

(** Lines 236-309. *)
Definition candidate_keys (table : string) (group_fields : list string)
           (gkey : key) (first_row : pyrow) : result candidates :=
  let gdict := dict_of_zip String.eqb group_fields gkey in
  let id_field := filter (fun c => Str.endswith c "_id") group_fields in
  let plain := {| gkeys := [gkey]; id_field_str := None;
                  name_field := None; _name := VNone |} in
  match id_field with
  | [] => Ok plain
  | id0 :: _ =>
      let _id := match dict_get String.eqb gdict id0 with
                 | Some v => v | None => VNone end in
      if Str.contains "restrictive" table && truthy _id then
        let name_fields :=
          filter (fun c => Str.endswith c "_name") (dict_keys first_row) in
        let name_field := hd_error name_fields in
        let _name := match name_field with
                     | Some n => row_get first_row n
                     | None => VNone
                     end in
        match _id with
        | VStr s =>
            rbind (expand_id gdict gkey id0 s) (fun more =>
            Ok {| gkeys := gkey :: more; id_field_str := Some id0;
                  name_field := name_field; _name := _name |})
        | _ => Raise TypeError
        end
      else Ok plain
  end.

(** *** The pre-check of one group *)

(** How the probing of one candidate ends: a stored row was found
    ([exists = True; break]), the all-but-last-field probe found one
    ([break] with [exists] still [False]), or the loop goes on. *)
Inductive verdict : Type := Found | NewVariant | Next.

(** Line 321: [len(gkeys) > 1 and id_field and isinstance(id_field, str)
    and _name and isinstance(name_field, str)]. *)
Definition fallback_on (c : candidates) : bool :=
  Nat.ltb 1 (List.length (gkeys c))
  && match id_field_str c with
     | Some f => negb (String.eqb f "")
     | None => false
     end
  && truthy (_name c)
  && match name_field c with Some _ => true | None => false end.

(** Lines 328-331: the group fields that are neither an identifier, a
    type nor the multiple code, with the first row's values. *)
Definition fieldsKeys (group_fields : list string) (first_row : pyrow)
  : list (string * value) :=
  fold_left
    (fun d field =>
       if negb (Str.contains "_id" field)
          && negb (Str.contains "_type" field)
          && negb (Str.contains "mult_code" field)
       then dict_set String.eqb d field (row_get first_row field)
       else d)
    group_fields [].

(** Line 334: [sql.split(' LIMIT')[0] + f" AND {name_field} LIKE ..."]. *)
Definition like_select (q : select) (name_field : string) : select :=
  {| sel_text := Str.before " LIMIT" (sel_text q)
                 ++ " AND " ++ name_field
                 ++ " LIKE '%' || ? || '%' LIMIT 1";
     sel_where := sel_where q;
     sel_like := Some name_field |}.

(** [_name.split(',')[0]]. *)
Definition first_segment (v : value) : result string :=
  match v with
  | VStr s => Ok (Str.before "," s)
  | _ => Raise AttributeError
  end.

(** One turn of the loop of lines 313-338. *)
Definition probe_candidate (table : string) (group_fields : list string)
           (c : candidates) (first_row : pyrow) (gkey : key) : M verdict :=
  qp <- lift (build_select_one table group_fields gkey) ;;
  found <- execute_select (fst qp) (snd qp) ;;
  match fetchone found with
  | Some _ => ret Found
  | None =>
      if fallback_on c then
        qp <- lift (build_select_one table (removelast group_fields)
                                     (removelast gkey)) ;;
        found <- execute_select (fst qp) (snd qp) ;;
        match fetchone found with
        | Some _ => ret NewVariant
        | None =>
            let fk := fieldsKeys group_fields first_row in
            qp <- lift (build_select_one table (dict_keys fk)
                                         (dict_values fk)) ;;
            let sql := like_select (fst qp)
                         (match name_field c with
                          | Some n => n | None => "None" end) in
            seg <- lift (first_segment (_name c)) ;;
            found <- execute_select sql (snd qp ++ [VStr seg]) ;;
            match fetchone found with
            | Some _ => ret Found
            | None => ret Next
            end
        end
      else ret Next
  end.

(** The loop [for gkey in gkeys], giving [exists] and the value [gkey]
    is bound to when the loop is left. *)
Fixpoint probe_loop (table : string) (group_fields : list string)
         (c : candidates) (first_row : pyrow) (todo : list key)
         (gkey : key) : M (bool * key) :=
  match todo with
  | [] => ret (false, gkey)
  | g :: todo' =>
      v <- probe_candidate table group_fields c first_row g ;;
      match v with
      | Found => ret (true, g)
      | NewVariant => ret (false, g)
      | Next => probe_loop table group_fields c first_row todo' g
      end
  end.

(** *** Insert and diagnosis *)

Definition nl : string := String (ascii_of_nat 10) EmptyString.

Definition insert_sql (table : string) (cols : list string) : string :=
  nl ++ "        INSERT OR IGNORE INTO " ++ table
     ++ " (" ++ String.concat ", " cols ++ ")"
     ++ nl ++ "        VALUES ("
     ++ String.concat ", " (map (fun c => (":" ++ c)%string) cols) ++ ")"
     ++ nl ++ "    ".

(** [SELECT * FROM t WHERE c1=? AND c2=? ...], used for
    [select_group_sql] and for the UNIQUE-index probes. *)
Definition select_all_eq (table : string) (columns : list string) : select :=
  {| sel_text := "SELECT * FROM " ++ table ++ " WHERE "
                 ++ String.concat " AND " (map (fun c => (c ++ "=?")%string) columns);
     sel_where := map (fun c => {| cond_col := c; cond_op := CmpEq |})
                      columns;
     sel_like := None |}.

(** A [set] of tuples, kept in order of first insertion. *)
Definition set_add (acc : list key) (k : key) : list key :=
  if existsb (key_eqb k) acc then acc else acc ++ [k].

Definition set_update (acc new : list key) : list key :=
  fold_left set_add new acc.

(** Lines 356-378; what is printed is left out. *)
Definition diagnose (table : string) (group_fields : list string)
           (unique_indexes : list (list string)) (gkey : key)
           (grp_rows : list pyrow) : M unit :=
  execute_select (select_all_eq table group_fields) gkey ;;;
  for_each
    (fun uniq_cols =>
       attempted <- lift (rmap (fun r => rmap (row_item r) uniq_cols)
                               grp_rows) ;;
       for_each
         (fun uk =>
            execute_select (select_all_eq table uniq_cols) uk ;;; ret tt)
         (set_update [] attempted))
    unique_indexes.

(** The body of [for gkey, grp_rows in groups.items()]. *)
Definition process_group (table : string) (group_fields : list string)
           (unique_indexes : list (list string)) (cols : list string)
           (g : key * list pyrow) : M unit :=
  let (gkey, grp_rows) := g in
  let first_row := hd [] grp_rows in
  c <- lift (candidate_keys table group_fields gkey first_row) ;;
  checked <- probe_loop table group_fields c first_row (gkeys c) gkey ;;
  let (exists_, gkey') := checked in
  if exists_ then ret tt
  else
    rows_inserted <-
      with_connection
        (executemany_insert true (insert_sql table cols) cols grp_rows) ;;
    if Nat.eqb rows_inserted (List.length grp_rows) then ret tt
    else diagnose table group_fields unique_indexes gkey' grp_rows.

(** [groups[k].append(r)] on a [defaultdict(list)]. *)
Fixpoint bucket_add (groups : list (key * list pyrow)) (k : key)
         (r : pyrow) : list (key * list pyrow) :=
  match groups with
  | [] => [(k, [r])]
  | (k', rs) :: groups' =>
      if key_eqb k' k then (k', rs ++ [r]) :: groups'
      else (k', rs) :: bucket_add groups' k r
  end.

Fixpoint bucket (group_fields : list string) (rows : list pyrow)
         (groups : list (key * list pyrow))
  : result (list (key * list pyrow)) :=
  match rows with
  | [] => Ok groups
  | r :: rows' =>
      rbind (group_key group_fields r) (fun k =>
      bucket group_fields rows' (bucket_add groups k r))
  end.

Definition insert_groups_with_conflict_report (table : string)
           (rows : list pyrow) (group_fields : list string) : M bool :=
  match rows with
  | [] => ret false
  | row0 :: _ =>
      unique_indexes <- _unique_indexes table ;;
      groups <- lift (bucket group_fields rows []) ;;
      let cols := dict_keys row0 in
      for_each (process_group table group_fields unique_indexes cols)
               groups ;;;
      ret true
  end.

(** *** bulk_insert_if_group_new *)

Definition _param_limit : nat := 999.

(** [max(1, param_limit // key_width)]. *)
Definition batch_size (param_limit key_width : nat) : result nat :=
  match key_width with
  | O => Raise ZeroDivisionError
  | S _ => Ok (Nat.max 1 (param_limit / key_width))
  end.

(** [range(0, stop, step)] for a positive [step]. *)
Definition range_step (stop step : nat) : list nat :=
  map (fun j => j * step) (seq 0 ((stop + step - 1) / step)).

(** [l[i: j]]. *)
Definition slice {A} (l : list A) (i j : nat) : list A :=
  firstn (j - i) (skipn i l).

(** The chunks [all_keys[i: i + batch_sz]] the loop of line 125 visits. *)
Definition chunks (batch_sz : nat) (all_keys : list key) : list (list key) :=
  map (fun i => slice all_keys i (i + batch_sz))
      (range_step (List.length all_keys) batch_sz).

(** Lines 128-138. *)
Definition join_sql (table : string) (key_fields : list string)
           (chunk : list key) : string :=
  let col_list := String.concat ", " key_fields in
  let values_clause :=
    String.concat ", "
      (map (fun _ => ("(" ++ String.concat ", "
                               (repeat "?" (List.length key_fields))
                          ++ ")")%string)
           chunk) in
  "WITH keys(" ++ col_list ++ ") AS (VALUES " ++ values_clause ++ ") "
  ++ "SELECT " ++ col_list ++ " "
  ++ "FROM   keys "
  ++ "JOIN   " ++ table ++ " USING (" ++ col_list ++ ")".

(** Lines 125-139: one join per chunk, the results gathered in
    [existing_keys]. *)
Fixpoint probe_chunks (table : string) (key_fields : list string)
         (todo : list (list key)) (existing_keys : list key)
  : M (list key) :=
  match todo with
  | [] => ret existing_keys
  | chunk :: todo' =>
      found <- execute_join (join_sql table key_fields chunk)
                            key_fields chunk ;;
      probe_chunks table key_fields todo' (set_update existing_keys found)
  end.

(** Lines 112-139, the batched existence probe, for a parameter budget
    [param_limit]. *)
Definition existing_keys_of (param_limit : nat) (table : string)
           (key_fields : list string) (all_keys : list key)
  : M (list key) :=
  batch_sz <- lift (batch_size param_limit (List.length key_fields)) ;;
  probe_chunks table key_fields (chunks batch_sz all_keys) [].

(** Lines 99-162: the statements that follow the [return] of
    [bulk_insert_if_group_new]. *)
Definition batched_body (param_limit : nat) (table : string)
           (rows : list pyrow) (key_fields : list string) : M bool :=
  match rows with
  | [] => ret false
  | _ :: _ =>
      _unique_indexes table ;;;
      groups <- lift (bucket key_fields rows []) ;;
      existing_keys <-
        existing_keys_of param_limit table key_fields (dict_keys groups) ;;
      let rows_to_insert :=
        flat_map (fun g => if existsb (key_eqb (fst g)) existing_keys
                           then [] else snd g) groups in
      match rows_to_insert with
      | [] => ret false
      | first :: _ =>
          let all_cols := dict_keys first in
          let insert_sql :=
            ("INSERT INTO " ++ table
             ++ " (" ++ String.concat ", " all_cols ++ ") VALUES ("
             ++ String.concat ", " (map (fun c => ":" ++ c) all_cols)
             ++ ")")%string in
          with_connection
            (executemany_insert false insert_sql all_cols rows_to_insert) ;;;
          ret true
      end
  end.

(** A function body leaves at its first [return]: the statements after
    it run only when the ones before fall through. *)
Inductive flow (A : Type) : Type :=
| Returned (a : A)
| FallThrough.
Arguments Returned {A} a.
Arguments FallThrough {A}.

Definition return_ {A} (m : M A) : M (flow A) :=
  a <- m ;; ret (Returned a).

Definition then_ {A} (first : M (flow A)) (rest : M A) : M A :=
  f <- first ;;
  match f with
  | Returned a => ret a
  | FallThrough => rest
  end.

(** Line 85 is [return insert_groups_with_conflict_report(...)]; the
    docstring and lines 99-162 come after it. *)
Definition bulk_insert_if_group_new (table : string) (rows : list pyrow)
           (key_fields : list string) : M bool :=
  then_
    (return_ (insert_groups_with_conflict_report table rows key_fields))
    (batched_body _param_limit table rows key_fields).

End Dedup.

(** ** records/table_base.py *)

Module TableBase.

(** What a record class gives the statement derivation: its table name,
    [ordered_fields()], its type hints, and [ordered_leading()] when the
    class defines it. *)
Record shape : Type := {
  table_name : string;
  ordered_fields : list string;
  hints : list (string * string);
  ordered_leading : option (list string)
}.

Section Statements.
(** [cifparse.functions.sql.translate_sql_types], applied to the
    cleaned name of a hinted type. *)
Variable translate_sql_types : string -> string.

(** [fields.remove(x)]: drop the first occurrence. *)
Fixpoint remove_first (x : string) (fields : list string) : list string :=
  match fields with
  | [] => []
  | f :: rest => if String.eqb f x then rest else f :: remove_first x rest
  end.

Definition clean_hint (h : string) : string :=
  Str.replace (Str.replace h "<class '" "") "'>" "".

Definition get_fields (r : shape) (include_types : bool) : list string :=
  let fields := ordered_fields r in
  let fields :=
    if existsb (String.eqb "table_name") fields
    then remove_first "table_name" fields else fields in
  if negb include_types then fields
  else
    flat_map
      (fun field =>
         match dict_get String.eqb (hints r) field with
         | Some h =>
             [(field ++ " " ++ translate_sql_types (clean_hint h))%string]
         | None => []
         end)
      fields.

Definition to_drop_statement (r : shape) : result string :=
  Ok ("DROP TABLE IF EXISTS " ++ table_name r ++ ";")%string.

Definition to_create_statement (r : shape) : result string :=
  let fields := get_fields r true in
  let field_string := String.concat ", " fields in
  let primary_key :=
    match ordered_leading r with
    | Some (f :: fs) =>
        (", PRIMARY KEY (" ++ String.concat ", " (f :: fs) ++ ")")%string
    | _ => ""
    end in
  Ok ("CREATE TABLE IF NOT EXISTS " ++ table_name r
      ++ " (" ++ field_string ++ primary_key ++ ");")%string.

Definition to_insert_statement (r : shape) : result string :=
  let fields := get_fields r false in
  let field_string := String.concat ", " fields in
  let placeholders :=
    String.concat ", " (map (fun item => (":" ++ item)%string) fields) in
  Ok ("INSERT OR IGNORE INTO " ++ table_name r
      ++ " (" ++ field_string ++ ") VALUES (" ++ placeholders ++ ");")%string.
End Statements.

End TableBase.

(** ** records/mora/base.py *)

Module MoraBase.

Section Base.
(** The type of what [extract_field] yields. *)
Variable V : Type.

Record base : Type := {
  st : V;
  sec_code : V;
  sub_code : V;
  start_lat : V;
  start_lon : V;
  record_number : V;
  cycle_data : V
}.

Definition ordered_leading : list string :=
  ["st"; "sec_code"; "sub_code"; "start_lat"; "start_lon"].

Definition ordered_trailing : list string :=
  ["record_number"; "cycle_data"].

Definition ordered_fields : list string :=
  [] ++ ordered_leading ++ ordered_trailing.

Definition get_leading_dict (b : base) : list (string * V) :=
  [("st", st b); ("sec_code", sec_code b); ("sub_code", sub_code b);
   ("start_lat", start_lat b); ("start_lon", start_lon b)].

Definition get_trailing_dict (b : base) : list (string * V) :=
  [("record_number", record_number b); ("cycle_data", cycle_data b)].

(** [{**a, **b}]. *)
Definition dict_merge (a b : list (string * V)) : list (string * V) :=
  fold_left (fun d kv => dict_set String.eqb d (fst kv) (snd kv)) b a.

Definition to_dict (b : base) : list (string * V) :=
  dict_merge (get_leading_dict b) (get_trailing_dict b).
End Base.

(** What [TableBase] sees of a [Base] record: its fields, the class
    annotations as [str(hint)] gives them, and [ordered_leading]. *)
Definition shape_of (table_name : string) : TableBase.shape :=
  {| TableBase.table_name := table_name;
     TableBase.ordered_fields := ordered_fields;
     TableBase.hints :=
       [("table_name", "<class 'str'>"); ("st", "<class 'str'>");
        ("sec_code", "<class 'str'>"); ("sub_code", "<class 'str'>");
        ("start_lat", "<class 'float'>"); ("start_lon", "<class 'float'>");
        ("record_number", "<class 'int'>"); ("cycle_data", "<class 'str'>")];
     TableBase.ordered_leading := Some ordered_leading |}.

End MoraBase.

(** ** records/airports.py *)

Module Airports.

Section Airport.
(** A raw line, the four record classes, and what the constructor reads
    off a line through [extract_field]: whether [cont_rec_no] is in
    [[0, 1]], whether the continuation application is [a_table.standard]
    and whether the planning application is [a_table.planning]. *)
Variables line Primary Continuation Planning PlanningContinuation : Type.
Variable cont_rec_no_in_0_1 : line -> bool.
Variable application_is_standard : line -> bool.
Variable application_is_planning : line -> bool.
Variable primary_from_line : line -> Primary.
Variable continuation_from_line : line -> Continuation.
Variable planning_from_line : line -> Planning.
Variable planning_continuation_from_line : line -> PlanningContinuation.

Record airport : Type := {
  primary : option Primary;
  continuation : list Continuation;
  planning : list Planning;
  planning_continuation : list PlanningContinuation
}.

(** The object under construction and the local [was_last_planning]. *)
Record scan : Type := {
  self : airport;
  was_last_planning : bool
}.

(** The body of [for line in airport_partition]. *)
Definition scan_line (sc : scan) (l : line) : scan :=
  let a := self sc in
  if cont_rec_no_in_0_1 l then
    {| self := {| primary := Some (primary_from_line l);
                  continuation := continuation a;
                  planning := planning a;
                  planning_continuation := planning_continuation a |};
       was_last_planning := false |}
  else if application_is_standard l then
    {| self := {| primary := primary a;
                  continuation := continuation a ++ [continuation_from_line l];
                  planning := planning a;
                  planning_continuation := planning_continuation a |};
       was_last_planning := false |}
  else if application_is_planning l then
    {| self := {| primary := primary a;
                  continuation := continuation a;
                  planning := planning a ++ [planning_from_line l];
                  planning_continuation := planning_continuation a |};
       was_last_planning := true |}
  else if was_last_planning sc then
    {| self := {| primary := primary a;
                  continuation := continuation a;
                  planning := planning a;
                  planning_continuation :=
                    planning_continuation a
                    ++ [planning_continuation_from_line l] |};
       was_last_planning := false |}
  else sc.

(** [Airport.__init__]. *)
Definition init (airport_partition : list line) : airport :=
  self (fold_left scan_line airport_partition
                  {| self := {| primary := None; continuation := [];
                                planning := [];
                                planning_continuation := [] |};
                     was_last_planning := false |}).
End Airport.

Section AirportDict.
(** The record classes and the dictionaries their [to_dict] gives. *)
Variables Primary Continuation Planning PlanningContinuation D : Type.
Variable primary_to_dict : Primary -> D.
Variable continuation_to_dict : Continuation -> D.
Variable planning_to_dict : Planning -> D.
Variable planning_continuation_to_dict : PlanningContinuation -> D.

(** The dictionary [Airport.to_dict] returns, by key. *)
Record airport_dict : Type := {
  d_primary : D;
  d_continuation : list D;
  d_planning : list D;
  d_planning_continuation : list D
}.

(** [Airport.to_dict]; [self.primary.to_dict()] on a [primary] that is
    still [None] raises [AttributeError]. *)
Definition to_dict
           (a : airport Primary Continuation Planning PlanningContinuation)
  : result airport_dict :=
  match primary a with
  | None => Raise AttributeError
  | Some p =>
      Ok {| d_primary := primary_to_dict p;
            d_continuation := map continuation_to_dict (continuation a);
            d_planning := map planning_to_dict (planning a);
            d_planning_continuation :=
              map planning_continuation_to_dict (planning_continuation a) |}
  end.
End AirportDict.

End Airports.

(** ** Predicates of the specification *)

(** A key is present in the table when some stored row joins it. *)
Definition key_in_table (cols : list string) (db : list pyrow) (k : key)
  : bool :=
  existsb (using_eq cols k) db.

(** The values a stored row holds on the group fields. *)
Definition stored_key (group_fields : list string) (x : pyrow) : key :=
  map (row_get x) group_fields.

(** A group key with one column replaced: the value of every field named
    [id_field] becomes [v]. *)
Definition replace_id (group_fields : list string) (gkey : key)
           (id_field : string) (v : value) : key :=
  map (fun fx => if String.eqb (fst fx) id_field then v else snd fx)
      (combine group_fields gkey).

Definition is_insert (e : event) : bool :=
  match e with EvInsert _ _ => true | _ => false end.

(** The second store holds the table of the first and no further insert
    was issued in between. *)
Definition same_table (s s' : store) : Prop :=
  st_rows s' = st_rows s
  /\ st_uniques s' = st_uniques s
  /\ filter is_insert (st_log s') = filter is_insert (st_log s).

(** The second store holds the rows of the first, then rows that satisfy
    [P]. *)
Definition extends_by (P : pyrow -> Prop) (s s' : store) : Prop :=
  st_uniques s' = st_uniques s
  /\ exists added, st_rows s' = st_rows s ++ added /\ Forall P added.

(** A computation relates every store it starts from to the store it
    ends in, whether it returns or raises. *)
Definition keeps (R : store -> store -> Prop) {A} (m : M A) : Prop :=
  forall s, R s (snd (m s)).

(** Every row of a bucket has the bucket's key. *)
Definition well_bucketed (fields : list string)
           (groups : list (key * list pyrow)) : Prop :=
  forall gk rs r, In (gk, rs) groups -> In r rs ->
                  Dedup.group_key fields r = Ok gk.


(** The row has the key [gk] on the group fields. *)
Definition has_key (fields : list string) (gk : key) (r : pyrow) : bool :=
  match Dedup.group_key fields r with
  | Ok k => key_eqb k gk
  | Raise _ => false
  end.

(** The second store has the log of the first, then further statements. *)
Definition log_extends (s s' : store) : Prop :=
  exists more, st_log s' = st_log s ++ more.

(** The second store has the rows and the indexes of the first. *)
Definition same_rows (s s' : store) : Prop :=
  st_rows s' = st_rows s /\ st_uniques s' = st_uniques s.

(** At most [n] inserts were issued between the two stores. *)
Definition inserts_within (n : nat) (s s' : store) : Prop :=
  List.length (filter is_insert (st_log s'))
  <= List.length (filter is_insert (st_log s)) + n.

(** ** Example data *)

Module Examples.
Import Dedup.

Definition empty_store : store :=
  {| st_rows := []; st_uniques := []; st_log := [] |}.

(** The batch of the demo at the end of [dedup.py]. *)
Definition demo_batch : list pyrow :=
  [ [("x", VStr "A"); ("y", VStr "B"); ("z", VStr "C"); ("seq_no", VInt 1);
     ("dow", VInt 2); ("start_min", VInt 600); ("end_min", VInt 720)];
    [("x", VStr "A"); ("y", VStr "B"); ("z", VStr "C"); ("seq_no", VInt 2);
     ("dow", VInt 3); ("start_min", VInt 800); ("end_min", VInt 900)] ].

Definition demo_fields : list string := ["x"; "y"; "z"].

(** The store once the demo batch has been loaded into an empty table. *)
Definition demo_loaded : store :=
  snd (bulk_insert_if_group_new "time_of_op" demo_batch demo_fields
                                empty_store).


(** A stored row with the key [(A, B, C)], and a fresh batch of two rows
    with that key and other trailing values. *)
Definition atomic_store : store :=
  {| st_rows := [ [("x", VStr "A"); ("y", VStr "B"); ("z", VStr "C");
                   ("seq_no", VInt 1); ("dow", VInt 2)] ];
     st_uniques := [("sqlite_autoindex_time_of_op_1",
                     ["x"; "y"; "z"; "seq_no"])];
     st_log := [] |}.

Definition atomic_batch : list pyrow :=
  [ [("x", VStr "A"); ("y", VStr "B"); ("z", VStr "C"); ("seq_no", VInt 7);
     ("dow", VInt 5)];
    [("x", VStr "A"); ("y", VStr "B"); ("z", VStr "C"); ("seq_no", VInt 8);
     ("dow", VInt 6)] ].

(** A restrictive-airspace table that holds RENO NORTH, and the same
    airspace coming in as KSRENON. *)
Definition reno_fields : list string :=
  ["area"; "restrictive_id"; "mult_code"].

Definition reno_north_row : pyrow :=
  [("area", VStr "USA"); ("restrictive_id", VStr "RENO NORTH");
   ("mult_code", VStr "A"); ("seq_no", VInt 1);
   ("restrictive_name", VStr "RENO NORTH MOA")].

Definition reno_incoming : pyrow :=
  [("area", VStr "USA"); ("restrictive_id", VStr "KSRENON");
   ("mult_code", VStr "A"); ("seq_no", VInt 1);
   ("restrictive_name", VStr "RENO MOA, NV")].

Definition reno_key : key := [VStr "USA"; VStr "KSRENON"; VStr "A"].




(** A waypoint stored with a region, and a probe key without one. *)
Definition waypoint_columns : list string :=
  ["waypoint_id"; "waypoint_region"].
Definition waypoint_key : key := [VStr "NOHEA"; VNone].
Definition waypoint_stored : pyrow :=
  [("waypoint_id", VStr "NOHEA"); ("waypoint_region", VStr "PH")].

(** A record shape without fields. *)
Definition empty_shape : TableBase.shape :=
  {| TableBase.table_name := "t";
     TableBase.ordered_fields := [];
     TableBase.hints := [];
     TableBase.ordered_leading := None |}.
End Examples.

Unset Implicit Arguments.

(** ** The group key deriver *)

Section FieldsBefore.
Import Dedup.

Lemma index_found (pre post : list string) (pivot : string) :
  ~ In pivot pre ->
  index (pre ++ pivot :: post) pivot = Ok (List.length pre).
Proof.
  induction pre as [|f pre IH]; simpl; intros Hnot.
  - now rewrite String.eqb_refl.
  - destruct (String.eqb_spec f pivot) as [->|_].
    + exfalso; apply Hnot; now left.
    + rewrite IH; [reflexivity|]. intros Hin; apply Hnot; now right.
Qed.

Lemma index_absent (fields : list string) (pivot : string) :
  ~ In pivot fields -> index fields pivot = Raise ValueError.
Proof.
  induction fields as [|f fields IH]; simpl; intros Hnot; [reflexivity|].
  destruct (String.eqb_spec f pivot) as [->|_].
  - exfalso; apply Hnot; now left.
  - rewrite IH; [reflexivity|]. intros Hin; apply Hnot; now right.
Qed.

(** C8. [fields_before] returns the fields strictly before the first
    occurrence of the pivot, in their order, and the whole list when the
    pivot does not occur. *)
Theorem fields_before_spec (fields : list string) (pivot : string) :
  (forall pre post,
      fields = pre ++ pivot :: post -> ~ In pivot pre ->
      fields_before fields pivot = Ok pre)
  /\ (~ In pivot fields -> fields_before fields pivot = Ok fields).
Proof.
  split.
  - intros pre post -> Hnot. unfold fields_before.
    rewrite (index_found pre post pivot Hnot).
    now rewrite firstn_app, firstn_all, Nat.sub_diag, firstn_0, app_nil_r.
  - intros Hnot. unfold fields_before. now rewrite (index_absent _ _ Hnot).
Qed.

Lemma fields_before_spec_witness :
  fields_before ["center_id"; "seq_no"; "start_min"; "seq_no"] "seq_no"
  = Ok ["center_id"]
  /\ fields_before ["st"; "sec_code"] "seq_no" = Ok ["st"; "sec_code"].
Proof.
  split.
  - apply (proj1 (fields_before_spec
                    ["center_id"; "seq_no"; "start_min"; "seq_no"] "seq_no")
                 ["center_id"] ["start_min"; "seq_no"]).
    + reflexivity.
    + simpl. intros [H|[]]. discriminate H.
  - apply (proj2 (fields_before_spec ["st"; "sec_code"] "seq_no")).
    simpl. intros [H|[H|[]]]; discriminate H.
Defined.
End FieldsBefore.

(** ** The probe predicate *)

Section BuildSelectOne.
Import Dedup.

Lemma select_parts_all_none (cvs : list (string * value)) :
  Forall (fun cv => snd cv = VNone) cvs -> select_parts cvs = ([], []).
Proof.
  induction 1 as [|[col val] cvs Hv _ IH]; simpl; [reflexivity|].
  simpl in Hv. subst val. now rewrite IH.
Qed.

Lemma combine_all_none (columns : list string) (values : list value) :
  Forall (fun v => v = VNone) values ->
  Forall (fun cv => snd cv = VNone) (combine columns values).
Proof.
  intros H. revert columns.
  induction H as [|v values Hv _ IH]; intros [|c columns]; simpl;
    constructor; auto.
Qed.

(** C10. When every value of a non-empty column list is [None],
    [build_select_one] gives the text [SELECT * FROM <table> WHERE  LIMIT 1]
    with no parameter, and executing it raises instead of probing. *)
Theorem build_select_one_all_none
        (table : string) (columns : list string) (values : list value) :
  columns <> [] ->
  List.length columns = List.length values ->
  Forall (fun v => v = VNone) values ->
  exists q,
    build_select_one table columns values = Ok (q, [])
    /\ sel_text q = ("SELECT * FROM " ++ table ++ " WHERE  LIMIT 1")%string
    /\ sel_where q = []
    /\ forall s, fst (execute_select q [] s) = Raise OperationalError.
Proof.
  intros _ Hlen Hnone. unfold build_select_one.
  rewrite Hlen, Nat.eqb_refl. simpl.
  rewrite (select_parts_all_none _ (combine_all_none columns _ Hnone)).
  eexists; split; [reflexivity|]. simpl. repeat split.
Qed.

Lemma build_select_one_all_none_witness :
  exists q,
    build_select_one "waypoints" ["environment_region"; "environment_sub_code"]
                     [VNone; VNone] = Ok (q, [])
    /\ sel_text q = "SELECT * FROM waypoints WHERE  LIMIT 1"
    /\ sel_where q = []
    /\ forall s, fst (execute_select q [] s) = Raise OperationalError.
Proof.
  apply (build_select_one_all_none
           "waypoints" ["environment_region"; "environment_sub_code"]
           [VNone; VNone]).
  - discriminate.
  - reflexivity.
  - repeat constructor.
Defined.

(** Every conjunct [build_select_one] emits compares a column whose value
    is not [None], with [=]; the columns whose value is [None] have no
    conjunct. *)
Lemma select_parts_spec (cvs : list (string * value)) :
  select_parts cvs
  = (map (fun cv => {| cond_col := fst cv; cond_op := CmpEq |})
         (filter (fun cv => negb (is_none (snd cv))) cvs),
     map snd (filter (fun cv => negb (is_none (snd cv))) cvs)).
Proof.
  induction cvs as [|[col val] cvs IH]; simpl; [reflexivity|].
  rewrite IH. now destruct val.
Qed.

(** C2. On a key with a [None] column the probe that [build_select_one]
    builds leaves that column out: it carries the one equality on
    [waypoint_id], and a stored row whose [waypoint_region] is ['PH']
    satisfies it. *)
Theorem build_select_one_skips_none_column :
  exists q,
    build_select_one "waypoints" Examples.waypoint_columns
                     Examples.waypoint_key = Ok (q, [VStr "NOHEA"])
    /\ sel_text q = "SELECT * FROM waypoints WHERE waypoint_id = ? LIMIT 1"
    /\ sel_where q = [{| cond_col := "waypoint_id"; cond_op := CmpEq |}]
    /\ row_get Examples.waypoint_stored "waypoint_region" = VStr "PH"
    /\ select_holds q [VStr "NOHEA"] Examples.waypoint_stored = true.
Proof.
  eexists. split; [reflexivity|]. repeat split.
Qed.
End BuildSelectOne.

(** ** Statement derivation *)

Section SchemaDescriptor.
Import TableBase.
Variable translate_sql_types : string -> string.

Lemma get_fields_empty (r : shape) (include_types : bool) :
  ordered_fields r = [] -> get_fields translate_sql_types r include_types = [].
Proof.
  intros H. unfold get_fields. rewrite H. simpl. now destruct include_types.
Qed.

(** C7, as the code has it. For a record shape without fields both
    derivations return statement text with an empty column list; nothing
    is raised. *)
Theorem statements_of_empty_shape (r : shape) :
  ordered_fields r = [] ->
  to_insert_statement translate_sql_types r
  = Ok ("INSERT OR IGNORE INTO " ++ table_name r ++ " () VALUES ();")%string
  /\ exists primary_key,
      to_create_statement translate_sql_types r
      = Ok ("CREATE TABLE IF NOT EXISTS " ++ table_name r
            ++ " (" ++ primary_key ++ ");")%string
      /\ (ordered_leading r = None -> primary_key = "").
Proof.
  intros H. unfold to_insert_statement, to_create_statement.
  rewrite !(get_fields_empty _ _ H). simpl. split; [reflexivity|].
  eexists. split; [reflexivity|]. now intros ->.
Qed.
End SchemaDescriptor.

Lemma statements_of_empty_shape_witness :
  TableBase.to_insert_statement (fun t => t) Examples.empty_shape
  = Ok "INSERT OR IGNORE INTO t () VALUES ();"
  /\ exists primary_key,
      TableBase.to_create_statement (fun t => t) Examples.empty_shape
      = Ok ("CREATE TABLE IF NOT EXISTS t (" ++ primary_key ++ ");")%string
      /\ (TableBase.ordered_leading Examples.empty_shape = None ->
          primary_key = "").
Proof.
  apply (statements_of_empty_shape (fun t => t) Examples.empty_shape).
  reflexivity.
Defined.

(** C7, as the specification states it, fails: the derivations of a shape
    without fields return text and raise no [SchemaError]. *)
Lemma empty_shape_raises_nothing :
  TableBase.to_create_statement (fun t => t) Examples.empty_shape
  = Ok "CREATE TABLE IF NOT EXISTS t ();"
  /\ TableBase.to_insert_statement (fun t => t) Examples.empty_shape
     = Ok "INSERT OR IGNORE INTO t () VALUES ();"
  /\ ~ (TableBase.to_create_statement (fun t => t) Examples.empty_shape
        = Raise SchemaError
        \/ TableBase.to_insert_statement (fun t => t) Examples.empty_shape
           = Raise SchemaError).
Proof.
  repeat split. intros [H|H]; discriminate H.
Qed.

(** ** The load call: first facts *)

Section LoadBasics.
Import Dedup.

(** C9. A load call on an empty [rows] returns [False] and leaves the
    store as it was: no statement is issued, no row is inserted. *)
Theorem empty_batch_is_noop
        (table : string) (group_fields : list string) (s : store) :
  insert_groups_with_conflict_report table [] group_fields s = (Ok false, s)
  /\ bulk_insert_if_group_new table [] group_fields s = (Ok false, s).
Proof. split; reflexivity. Qed.

(** C6. [bulk_insert_if_group_new] gives the result and the store of
    [insert_groups_with_conflict_report] on the same arguments, and so
    does any body that starts with that [return], whatever follows it. *)
Theorem bulk_insert_if_group_new_delegates
        (table : string) (rows : list pyrow) (key_fields : list string)
        (s : store) :
  bulk_insert_if_group_new table rows key_fields s
  = insert_groups_with_conflict_report table rows key_fields s
  /\ forall rest : M bool,
      then_ (return_ (insert_groups_with_conflict_report
                        table rows key_fields)) rest s
      = insert_groups_with_conflict_report table rows key_fields s.
Proof.
  assert (H : forall rest : M bool,
             then_ (return_ (insert_groups_with_conflict_report
                               table rows key_fields)) rest s
             = insert_groups_with_conflict_report table rows key_fields s).
  { intros rest. unfold then_, return_, bind, ret.
    destruct (insert_groups_with_conflict_report table rows key_fields s)
      as [[b|e] s']; reflexivity. }
  split; [apply H | exact H].
Qed.

(** Whenever a load call on a non-empty batch returns, it returns
    [True]. *)
Lemma nonempty_load_returns_true
      (table : string) (rows : list pyrow) (group_fields : list string)
      (s : store) (b : bool) :
  rows <> [] ->
  fst (insert_groups_with_conflict_report table rows group_fields s) = Ok b ->
  b = true.
Proof.
  destruct rows as [|row0 rows]; [congruence|]. intros _.
  unfold insert_groups_with_conflict_report, bind, lift, ret.
  destruct (_unique_indexes table s) as [[u|e] s1]; [|discriminate].
  destruct (bucket group_fields (row0 :: rows) []) as [groups|e];
    [|discriminate].
  destruct (for_each _ groups s1) as [[[]|e] s2]; simpl; congruence.
Qed.

(** C1. Loading the demo batch a second time, when its one group is
    already stored: the pre-check finds the group, no insert is issued
    and the rows stay as they were, yet the call returns [True]. *)
Theorem second_load_returns_true :
  fst (bulk_insert_if_group_new "time_of_op" Examples.demo_batch
                                Examples.demo_fields Examples.empty_store)
  = Ok true
  /\ List.length (st_rows Examples.demo_loaded) = 2
  /\ fst (bulk_insert_if_group_new "time_of_op" Examples.demo_batch
                                   Examples.demo_fields Examples.demo_loaded)
     = Ok true
  /\ st_rows (snd (bulk_insert_if_group_new
                     "time_of_op" Examples.demo_batch Examples.demo_fields
                     Examples.demo_loaded))
     = st_rows Examples.demo_loaded
  /\ existsb is_insert
       (skipn (List.length (st_log Examples.demo_loaded))
              (st_log (snd (bulk_insert_if_group_new
                              "time_of_op" Examples.demo_batch
                              Examples.demo_fields Examples.demo_loaded))))
     = false.
Proof. vm_compute. repeat split. Qed.
End LoadBasics.

(** ** The batched existence probe *)

Section BatchedProbe.
Import Dedup.

Lemma value_eqb_eq (a b : value) : value_eqb a b = true <-> a = b.
Proof.
  destruct a, b; simpl; split; intros H; try congruence; try reflexivity.
  - apply String.eqb_eq in H. now subst.
  - injection H as ->. apply String.eqb_refl.
  - apply Z.eqb_eq in H. now subst.
  - injection H as ->. apply Z.eqb_refl.
Qed.

Lemma key_eqb_eq (a b : key) : key_eqb a b = true <-> a = b.
Proof.
  unfold key_eqb. revert b.
  induction a as [|x a IH]; intros [|y b]; simpl; split; intros H;
    try congruence; try reflexivity.
  - apply andb_true_iff in H as [Hx Ha].
    apply value_eqb_eq in Hx. apply IH in Ha. now subst.
  - injection H as -> ->. apply andb_true_iff. split.
    + now apply value_eqb_eq.
    + now apply IH.
Qed.

Lemma set_add_In (acc : list key) (k x : key) :
  In x (set_add acc k) <-> In x acc \/ x = k.
Proof.
  unfold set_add. destruct (existsb (key_eqb k) acc) eqn:E.
  - apply existsb_exists in E as (y & Hy & Heq).
    apply key_eqb_eq in Heq. subst y. intuition (subst; auto).
  - rewrite in_app_iff. simpl. intuition.
Qed.

Lemma set_update_In (new acc : list key) (x : key) :
  In x (set_update acc new) <-> In x acc \/ In x new.
Proof.
  unfold set_update. revert acc.
  induction new as [|k new IH]; intros acc; simpl; [tauto|].
  rewrite IH, set_add_In. intuition.
Qed.




Lemma joined_In (cols : list string) (db : list pyrow) (keys : list key)
      (k : key) :
  In k (flat_map (fun k => map (fun _ => k) (filter (using_eq cols k) db))
                 keys)
  <-> In k keys /\ key_in_table cols db k = true.
Proof.
  unfold key_in_table. rewrite in_flat_map. split.
  - intros (k' & Hk' & Hin). apply in_map_iff in Hin as (x & <- & Hx).
    apply filter_In in Hx as [Hx Hu]. split; [assumption|].
    apply existsb_exists. now exists x.
  - intros [Hk Hex]. apply existsb_exists in Hex as (x & Hx & Hu).
    exists k. split; [assumption|]. apply in_map_iff. exists x.
    split; [reflexivity|]. now apply filter_In.
Qed.


















End BatchedProbe.

(** ** What a computation does to the table *)

Section Keeps.
Variable R : store -> store -> Prop.
Hypothesis R_refl : forall s, R s s.
Hypothesis R_trans : forall s1 s2 s3, R s1 s2 -> R s2 s3 -> R s1 s3.

Lemma keeps_ret {A} (a : A) : keeps R (ret a).
Proof. intros s. apply R_refl. Qed.

Lemma keeps_lift {A} (r : result A) : keeps R (lift r).
Proof. intros s. apply R_refl. Qed.

Lemma keeps_bind {A B} (m : M A) (k : A -> M B) :
  keeps R m -> (forall a, keeps R (k a)) -> keeps R (bind m k).
Proof.
  intros Hm Hk s. unfold bind. specialize (Hm s).
  destruct (m s) as [[a|e] s1]; simpl in *; [|assumption].
  eapply R_trans; [eassumption | apply Hk].
Qed.

Lemma keeps_for_each {A} (body : A -> M unit) (xs : list A) :
  (forall x, In x xs -> keeps R (body x)) -> keeps R (for_each body xs).
Proof.
  induction xs as [|x xs IH]; intros Hbody; simpl.
  - apply keeps_ret.
  - apply keeps_bind.
    + apply Hbody. now left.
    + intros _. apply IH. intros y Hy. apply Hbody. now right.
Qed.
End Keeps.

Lemma same_table_refl (s : store) : same_table s s.
Proof. repeat split. Qed.

Lemma same_table_trans (s1 s2 s3 : store) :
  same_table s1 s2 -> same_table s2 s3 -> same_table s1 s3.
Proof.
  intros (H1 & H2 & H3) (H4 & H5 & H6). repeat split; congruence.
Qed.

Lemma extends_by_refl (P : pyrow -> Prop) (s : store) : extends_by P s s.
Proof. split; [reflexivity|]. exists []. now rewrite app_nil_r. Qed.

Lemma extends_by_trans (P : pyrow -> Prop) (s1 s2 s3 : store) :
  extends_by P s1 s2 -> extends_by P s2 s3 -> extends_by P s1 s3.
Proof.
  intros (Hu1 & a1 & Hr1 & Hp1) (Hu2 & a2 & Hr2 & Hp2).
  split; [congruence|]. exists (a1 ++ a2). split.
  - now rewrite Hr2, Hr1, app_assoc.
  - now apply Forall_app.
Qed.

Lemma same_table_extends (P : pyrow -> Prop) (s s' : store) :
  same_table s s' -> extends_by P s s'.
Proof.
  intros (Hr & Hu & _). split; [assumption|].
  exists []. now rewrite app_nil_r.
Qed.

Lemma keeps_same_table_extends (P : pyrow -> Prop) {A} (m : M A) :
  keeps same_table m -> keeps (extends_by P) m.
Proof. intros H s. apply same_table_extends, H. Qed.

Ltac table_rel :=
  first [ exact same_table_refl | exact same_table_trans
        | exact (extends_by_refl _) | exact (extends_by_trans _) ].

(** One step through a computation built from [ret], [lift] and [bind]. *)
Ltac keeps_step :=
  first
    [ apply keeps_ret; table_rel
    | apply keeps_lift; table_rel
    | apply keeps_bind; [table_rel | | intros ?] ].

Section ProbeFrame.
Import Dedup.

Lemma log_event_same_table (e : event) (s : store) :
  is_insert e = false -> same_table s (log_event e s).
Proof.
  intros He. repeat split. simpl.
  rewrite filter_app. simpl. rewrite He. now rewrite app_nil_r.
Qed.

(** What [cur.execute] of a select returns is a function of the rows. *)
Lemma execute_select_value (q : select) (params : list value) (s : store) :
  fst (execute_select q params s)
  = match sel_where q with
    | [] => Raise OperationalError
    | _ :: _ =>
        if Nat.eqb (List.length params) (placeholders q)
        then Ok (filter (select_holds q params) (st_rows s))
        else Raise ProgrammingError
    end.
Proof.
  unfold execute_select. destruct (sel_where q); [reflexivity|].
  now destruct (Nat.eqb _ _).
Qed.

Lemma execute_select_keeps (q : select) (params : list value) :
  keeps same_table (execute_select q params).
Proof.
  intros s. unfold execute_select.
  destruct (sel_where q); [|destruct (Nat.eqb _ _)]; simpl;
    now apply log_event_same_table.
Qed.

Lemma probe_candidate_keeps (table : string) (group_fields : list string)
      (c : candidates) (first_row : pyrow) (g : key) :
  keeps same_table (probe_candidate table group_fields c first_row g).
Proof.
  unfold probe_candidate.
  keeps_step. keeps_step.
  keeps_step; [apply execute_select_keeps|].
  destruct (fetchone a0); [keeps_step|].
  destruct (fallback_on c); [|keeps_step].
  keeps_step. keeps_step.
  keeps_step; [apply execute_select_keeps|].
  destruct (fetchone a2); [keeps_step|].
  keeps_step. keeps_step.
  keeps_step. keeps_step.
  keeps_step; [apply execute_select_keeps|].
  destruct (fetchone a5); keeps_step.
Qed.

Lemma probe_loop_keeps (table : string) (group_fields : list string)
      (c : candidates) (first_row : pyrow) (todo : list key) :
  forall gkey,
    keeps same_table (probe_loop table group_fields c first_row todo gkey).
Proof.
  induction todo as [|g todo IH]; intros gkey; simpl.
  - keeps_step.
  - keeps_step; [apply probe_candidate_keeps|].
    destruct a; [keeps_step | keeps_step | apply IH].
Qed.

Lemma diagnose_keeps (table : string) (group_fields : list string)
      (unique_indexes : list (list string)) (gkey : key)
      (grp_rows : list pyrow) :
  keeps same_table
        (diagnose table group_fields unique_indexes gkey grp_rows).
Proof.
  unfold diagnose.
  keeps_step; [apply execute_select_keeps|].
  apply keeps_for_each; [table_rel | table_rel |]. intros uniq_cols _.
  keeps_step. keeps_step.
  apply keeps_for_each; [table_rel | table_rel |]. intros uk _.
  keeps_step; [apply execute_select_keeps | keeps_step].
Qed.
End ProbeFrame.

(** ** Group atomicity *)

Section GroupAtomicity.
Import Dedup.

Lemma rmap_length {A B} (f : A -> result B) (xs : list A) (ys : list B) :
  rmap f xs = Ok ys -> List.length ys = List.length xs.
Proof.
  revert ys. induction xs as [|x xs IH]; simpl; intros ys H.
  - now injection H as <-.
  - destruct (f x) as [y|e]; [|discriminate]. simpl in H.
    destruct (rmap f xs) as [ys'|e]; [|discriminate]. simpl in H.
    injection H as <-. simpl. now rewrite (IH ys').
Qed.

Lemma rmap_In {A B} (f : A -> result B) (xs : list A) (ys : list B) (x : A) :
  rmap f xs = Ok ys -> In x xs -> exists y, f x = Ok y.
Proof.
  revert ys. induction xs as [|x' xs IH]; simpl; intros ys H Hin; [easy|].
  destruct (f x') as [y|e] eqn:Fx; [|discriminate]. simpl in H.
  destruct (rmap f xs) as [ys'|e]; [|discriminate].
  destruct Hin as [->|Hin]; [now exists y | now apply (IH ys')].
Qed.

(** *** The first probe of a stored group *)

Lemma select_parts_lengths (cvs : list (string * value)) :
  List.length (snd (select_parts cvs)) = List.length (fst (select_parts cvs)).
Proof.
  induction cvs as [|[col val] cvs IH]; simpl; [reflexivity|].
  destruct (select_parts cvs) as [ws ps]. simpl in *.
  destruct (is_none val); simpl; congruence.
Qed.

Lemma value_eqb_refl (v : value) : value_eqb v v = true.
Proof. now apply value_eqb_eq. Qed.

Lemma select_parts_holds (x : pyrow) (fields : list string) :
  where_holds
    (fst (select_parts (combine fields (stored_key fields x))))
    (snd (select_parts (combine fields (stored_key fields x)))) x = true.
Proof.
  induction fields as [|f fields IH]; simpl; [reflexivity|].
  fold (stored_key fields x).
  destruct (select_parts (combine fields (stored_key fields x))) as [ws ps].
  simpl in IH.
  destruct (is_none (row_get x f)) eqn:N; simpl; [assumption|].
  now rewrite N, value_eqb_refl, IH.
Qed.

(** A stored row that carries the key satisfies the probe built for
    it. *)
Lemma build_select_one_matches (table : string) (fields : list string)
      (x : pyrow) (q : select) (params : list value) :
  build_select_one table fields (stored_key fields x) = Ok (q, params) ->
  select_holds q params x = true
  /\ List.length params = placeholders q.
Proof.
  unfold build_select_one. destruct (negb _); [discriminate|].
  pose proof (select_parts_holds x fields) as Hh.
  pose proof (select_parts_lengths
                (combine fields (stored_key fields x))) as Hl.
  destruct (select_parts (combine fields (stored_key fields x))) as [ws ps].
  simpl in Hh, Hl. intros H. injection H as <- <-.
  unfold select_holds, placeholders. simpl. rewrite Hh. split; [reflexivity|].
  lia.
Qed.

Lemma probe_candidate_stored (table : string) (fields : list string)
      (c : candidates) (first_row : pyrow) (x : pyrow) (s : store) :
  In x (st_rows s) ->
  fst (probe_candidate table fields c first_row (stored_key fields x) s)
  = Ok Found
  \/ exists e,
      fst (probe_candidate table fields c first_row (stored_key fields x) s)
      = Raise e.
Proof.
  intros Hin. unfold probe_candidate, bind, lift.
  destruct (build_select_one table fields (stored_key fields x))
    as [[q params]|e] eqn:B; [|right; now exists e].
  apply build_select_one_matches in B as [Hh Hl]. simpl.
  pose proof (execute_select_value q params s) as V.
  destruct (execute_select q params s) as [[found|e] s1];
    [|right; now exists e].
  simpl in V. left.
  destruct (sel_where q); [discriminate|].
  rewrite Hl, Nat.eqb_refl in V. injection V as ->.
  assert (Hx : In x (filter (select_holds q params) (st_rows s)))
    by now apply filter_In.
  destruct (filter (select_holds q params) (st_rows s)); [easy|reflexivity].
Qed.

Lemma candidate_keys_head (table : string) (fields : list string)
      (gkey : key) (first_row : pyrow) (c : candidates) :
  candidate_keys table fields gkey first_row = Ok c ->
  exists more, gkeys c = gkey :: more.
Proof.
  unfold candidate_keys.
  destruct (filter _ fields) as [|id0 ids];
    [intros H; injection H as <-; now exists []|].
  destruct (_ && _);
    [|intros H; injection H as <-; now exists []].
  destruct (match dict_get String.eqb _ id0 with Some v => v | None => VNone end)
    as [|sid|z]; try discriminate.
  destruct (expand_id _ gkey id0 sid) as [more|e]; [|discriminate].
  simpl. intros H. injection H as <-. now exists more.
Qed.

(** A group whose key a stored row carries is left alone: whether the
    pre-check returns or raises, the table is what it was and no insert
    was issued. *)
Lemma process_group_stored (table : string) (fields : list string)
      (unique_indexes : list (list string)) (cols : list string)
      (grp_rows : list pyrow) (x : pyrow) (s : store) :
  In x (st_rows s) ->
  same_table s
             (snd (process_group table fields unique_indexes cols
                                 (stored_key fields x, grp_rows) s)).
Proof.
  intros Hin. unfold process_group, bind, lift.
  destruct (candidate_keys table fields (stored_key fields x)
                           (hd [] grp_rows)) as [c|e] eqn:C;
    [|apply same_table_refl].
  destruct (candidate_keys_head _ _ _ _ _ C) as [more ->].
  pose proof (probe_loop_keeps table fields c (hd [] grp_rows)
                               (stored_key fields x :: more)
                               (stored_key fields x) s) as K.
  pose proof (probe_candidate_stored table fields c (hd [] grp_rows)
                                     x s Hin) as F.
  revert K. simpl. unfold bind.
  destruct (probe_candidate table fields c (hd [] grp_rows)
                            (stored_key fields x) s) as [[v|e] s1];
    simpl in F |- *.
  - destruct F as [F|[e F]]; [|discriminate]. injection F as ->.
    simpl. auto.
  - auto.
Qed.

(** *** What an insert adds *)

Lemma insert_rows_adds (or_ignore : bool) (cols : list string)
      (uniques : list (list string)) (rows : list pyrow) :
  forall (db : list pyrow) (count : nat),
  exists added,
    snd (insert_rows or_ignore cols rows uniques db count) = db ++ added
    /\ Forall (fun y => exists r, In r rows /\ bind_named cols r = Ok y)
              added.
Proof.
  induction rows as [|r rows IH]; intros db count; simpl.
  - exists []. now rewrite app_nil_r.
  - destruct (bind_named cols r) as [y|e] eqn:B.
    + assert (Hweak : forall added,
                 Forall (fun y => exists r0, In r0 rows
                                             /\ bind_named cols r0 = Ok y)
                        added ->
                 Forall (fun y => exists r0, (r = r0 \/ In r0 rows)
                                             /\ bind_named cols r0 = Ok y)
                        added).
      { intros added. apply Forall_impl. intros a (r0 & H0 & H1).
        exists r0. auto. }
      destruct (violates uniques db y).
      * destruct or_ignore.
        -- destruct (IH db count) as (added & -> & HP).
           exists added. auto.
        -- exists []. simpl. now rewrite app_nil_r.
      * destruct (IH (db ++ [y]) (S count)) as (added & -> & HP).
        exists (y :: added). split.
        -- now rewrite <- app_assoc.
        -- constructor; [exists r; auto | auto].
    + exists []. simpl. now rewrite app_nil_r.
Qed.

Lemma insert_keeps (text : string) (cols : list string)
      (grp_rows : list pyrow) :
  keeps (extends_by (fun y => exists r, In r grp_rows
                                        /\ bind_named cols r = Ok y))
        (with_connection (executemany_insert true text cols grp_rows)).
Proof.
  intros s. unfold with_connection, executemany_insert.
  destruct (insert_rows_adds true cols (map snd (st_uniques s)) grp_rows
                             (st_rows s) 0) as (added & Hadd & HP).
  destruct (insert_rows true cols grp_rows (map snd (st_uniques s))
                        (st_rows s) 0) as [[n|e] db]; simpl in *.
  - split; [reflexivity|]. exists added. now split.
  - split; [reflexivity|]. exists []. simpl. now rewrite app_nil_r.
Qed.

Lemma process_group_adds (table : string) (fields : list string)
      (unique_indexes : list (list string)) (cols : list string)
      (gkey : key) (grp_rows : list pyrow) :
  keeps (extends_by (fun y => exists r, In r grp_rows
                                        /\ bind_named cols r = Ok y))
        (process_group table fields unique_indexes cols (gkey, grp_rows)).
Proof.
  unfold process_group.
  keeps_step. keeps_step.
  keeps_step; [apply keeps_same_table_extends, probe_loop_keeps|].
  destruct a0 as [exists_ gkey']. destruct exists_; [keeps_step|].
  keeps_step; [apply insert_keeps|].
  destruct (Nat.eqb _ _); [keeps_step|].
  apply keeps_same_table_extends, diagnose_keeps.
Qed.

Lemma bind_named_get (cols : list string) (r y : pyrow) (f : string) :
  bind_named cols r = Ok y -> In f cols ->
  dict_get String.eqb y f = dict_get String.eqb r f.
Proof.
  unfold bind_named. revert y.
  induction cols as [|c cols IH]; simpl; intros y H Hin; [easy|].
  destruct (dict_get String.eqb r c) as [v|] eqn:G; [|discriminate].
  simpl in H.
  destruct (rmap _ cols) as [y'|e]; [|discriminate]. simpl in H.
  injection H as <-. simpl.
  destruct (String.eqb_spec c f) as [->|Hne]; [now rewrite G|].
  destruct Hin as [->|Hin]; [congruence|]. now apply IH.
Qed.

(** The row stored for a row of a group carries the group's key. *)
Lemma bind_named_stored_key (cols fields : list string) (r y : pyrow)
      (k : key) :
  (forall f, In f fields -> In f cols) ->
  bind_named cols r = Ok y ->
  group_key fields r = Ok k ->
  stored_key fields y = k.
Proof.
  intros Hsub B. unfold group_key, stored_key. revert k.
  induction fields as [|f fields IH]; simpl; intros k H.
  - now injection H as <-.
  - unfold row_item at 1 in H.
    destruct (dict_get String.eqb r f) as [v|] eqn:G; [|discriminate].
    simpl in H.
    destruct (rmap (row_item r) fields) as [k'|e]; [|discriminate].
    simpl in H. injection H as <-. f_equal.
    + unfold row_get. rewrite (bind_named_get cols r y f B), G;
        [reflexivity | apply Hsub; now left].
    + apply IH; [|reflexivity]. intros f' Hf'. apply Hsub. now right.
Qed.

(** *** The buckets *)

Lemma bucket_add_well (fields : list string) (k : key) (r : pyrow) :
  group_key fields r = Ok k ->
  forall groups,
    well_bucketed fields groups ->
    well_bucketed fields (bucket_add groups k r).
Proof.
  intros Hk. induction groups as [|[k' rs] groups IH]; intros Hw; simpl.
  - intros gk rs0 r0 [H|[]] Hr. injection H as <- <-.
    destruct Hr as [<-|[]]. assumption.
  - destruct (key_eqb k' k) eqn:E.
    + apply key_eqb_eq in E. subst k'.
      intros gk rs0 r0 [H|H] Hr.
      * injection H as <- <-. apply in_app_iff in Hr as [Hr|[<-|[]]].
        -- apply (Hw k rs r0); [now left | assumption].
        -- assumption.
      * apply (Hw gk rs0 r0); [now right | assumption].
    + intros gk rs0 r0 [H|H] Hr.
      * injection H as <- <-. apply (Hw k' rs r0); [now left | assumption].
      * apply IH with (rs := rs0); try assumption.
        intros gk' rs' r' Hin'. apply (Hw gk' rs' r'). now right.
Qed.

Lemma bucket_well (fields : list string) (rows : list pyrow) :
  forall acc groups,
    well_bucketed fields acc ->
    bucket fields rows acc = Ok groups ->
    well_bucketed fields groups
    /\ forall r, In r rows -> exists k, group_key fields r = Ok k.
Proof.
  induction rows as [|r rows IH]; simpl; intros acc groups Hw H.
  - injection H as <-. split; [assumption | easy].
  - destruct (group_key fields r) as [k|e] eqn:G; [|discriminate].
    simpl in H.
    destruct (IH _ _ (bucket_add_well fields k r G acc Hw) H) as [Hg Hr].
    split; [assumption|]. intros r0 [<-|Hin]; [now exists k | now apply Hr].
Qed.

Lemma dict_get_In (r : pyrow) (f : string) (v : value) :
  dict_get String.eqb r f = Some v -> In f (dict_keys r).
Proof.
  induction r as [|[f' v'] r IH]; simpl; [discriminate|].
  destruct (String.eqb_spec f' f) as [->|_]; [now left|].
  intros H. right. now apply IH.
Qed.

Lemma group_key_fields (fields : list string) (r : pyrow) (k : key) :
  group_key fields r = Ok k ->
  forall f, In f fields -> In f (dict_keys r).
Proof.
  intros H f Hin. destruct (rmap_In _ _ _ f H Hin) as [v Hv].
  unfold row_item in Hv.
  destruct (dict_get String.eqb r f) as [v'|] eqn:G; [|discriminate].
  now apply dict_get_In in G.
Qed.

Lemma _unique_indexes_keeps (table : string) :
  keeps same_table (_unique_indexes table).
Proof.
  intros s. unfold _unique_indexes. simpl.
  assert (H : forall (idxs : list (string * list string)) s0,
             same_table s s0 ->
             same_table s
               (fold_left
                  (fun acc idx =>
                     log_event
                       (EvPragma ("PRAGMA index_info('" ++ fst idx ++ "')")%string)
                       acc) idxs s0)).
  { induction idxs as [|idx idxs IH]; intros s0 H0; simpl; [assumption|].
    apply IH. eapply same_table_trans; [eassumption|].
    now apply log_event_same_table. }
  apply H. now apply log_event_same_table.
Qed.

Lemma for_each_cons_snd {A} (body : A -> M unit) (x : A) (xs : list A)
      (s : store) :
  snd (for_each body (x :: xs) s)
  = match body x s with
    | (Ok _, s1) => snd (for_each body xs s1)
    | (Raise _, s1) => s1
    end.
Proof. simpl. unfold bind. now destruct (body x s) as [[[]|e] s1]. Qed.

(** The loop over the groups, for a key [k] that a stored row carries. *)
Lemma groups_loop_spares (table : string) (fields : list string)
      (unique_indexes : list (list string)) (cols : list string)
      (k : key) (groups : list (key * list pyrow)) :
  (forall f, In f fields -> In f cols) ->
  well_bucketed fields groups ->
  forall s,
    (exists x, In x (st_rows s) /\ stored_key fields x = k) ->
    extends_by (fun y => stored_key fields y <> k) s
               (snd (for_each
                       (process_group table fields unique_indexes cols)
                       groups s)).
Proof.
  intros Hsub. induction groups as [|[gk rs] groups IH]; intros Hw s Hx.
  - apply extends_by_refl.
  - rewrite for_each_cons_snd.
    assert (Hstep : extends_by (fun y => stored_key fields y <> k) s
                      (snd (process_group table fields unique_indexes cols
                                          (gk, rs) s))).
    { destruct (key_eqb gk k) eqn:E.
      - apply key_eqb_eq in E. subst gk. destruct Hx as (x & Hin & <-).
        now apply same_table_extends, process_group_stored.
      - destruct (process_group_adds table fields unique_indexes cols
                                     gk rs s) as (Hu & added & Hr & HP).
        split; [assumption|]. exists added. split; [assumption|].
        revert HP. apply Forall_impl. intros y (r & Hr0 & B) Heq.
        rewrite (bind_named_stored_key cols fields r y gk Hsub B) in Heq.
        + subst gk. assert (key_eqb k k = true) by now apply key_eqb_eq.
          congruence.
        + apply (Hw gk rs r); [now left | assumption]. }
    destruct (process_group table fields unique_indexes cols (gk, rs) s)
      as [[[]|e] s1]; [|exact Hstep].
    eapply extends_by_trans; [exact Hstep|].
    apply IH.
    + intros gk' rs' r' Hin'. apply (Hw gk' rs' r'). now right.
    + destruct Hx as (x & Hin & Hk). exists x. split; [|assumption].
      destruct Hstep as (_ & added & Hr & _). simpl in Hr. rewrite Hr.
      apply in_app_iff. now left.
Qed.

(** C3. When a stored row carries the key of one of the batch's groups,
    the load call inserts no row of that group: the table ends as its
    old rows followed by rows that carry other keys. *)
Theorem stored_group_gets_no_row
        (table : string) (rows : list pyrow) (group_fields : list string)
        (s : store) (r x : pyrow) (k : key) :
  In r rows ->
  group_key group_fields r = Ok k ->
  In x (st_rows s) ->
  stored_key group_fields x = k ->
  exists added,
    st_rows (snd (insert_groups_with_conflict_report
                    table rows group_fields s))
    = st_rows s ++ added
    /\ Forall (fun y => stored_key group_fields y <> k) added.
Proof.
  intros _ _ Hin Hk.
  enough (H : extends_by (fun y => stored_key group_fields y <> k) s
                (snd (insert_groups_with_conflict_report
                        table rows group_fields s)))
    by (destruct H as (_ & added & Hr & HP); now exists added).
  unfold insert_groups_with_conflict_report.
  destruct rows as [|row0 rows]; [apply extends_by_refl|].
  unfold bind, lift, ret.
  pose proof (_unique_indexes_keeps table s) as U.
  destruct (_unique_indexes table s) as [[uniques|e] s1]; simpl in U;
    [|now apply same_table_extends].
  destruct (bucket group_fields (row0 :: rows) []) as [groups|e] eqn:B;
    [|now apply same_table_extends].
  destruct (bucket_well group_fields (row0 :: rows) [] groups) as [Hw Hr];
    [easy | assumption |].
  destruct (Hr row0 (or_introl eq_refl)) as [k0 Hk0].
  assert (Hloop : extends_by (fun y => stored_key group_fields y <> k) s1
                    (snd (for_each
                            (process_group table group_fields uniques
                                           (dict_keys row0))
                            groups s1))).
  { apply groups_loop_spares.
    - now apply group_key_fields with (k := k0).
    - assumption.
    - exists x. split; [|assumption]. destruct U as (-> & _). assumption. }
  apply same_table_extends
    with (P := fun y => stored_key group_fields y <> k) in U.
  destruct (for_each _ groups s1) as [[[]|e] s2];
    (eapply extends_by_trans; [exact U | exact Hloop]).
Qed.

Lemma stored_group_gets_no_row_witness :
  exists added,
    st_rows (snd (insert_groups_with_conflict_report
                    "time_of_op" Examples.atomic_batch Examples.demo_fields
                    Examples.atomic_store))
    = st_rows Examples.atomic_store ++ added
    /\ Forall (fun y => stored_key Examples.demo_fields y
                        <> [VStr "A"; VStr "B"; VStr "C"]) added.
Proof.
  apply (stored_group_gets_no_row
           "time_of_op" Examples.atomic_batch Examples.demo_fields
           Examples.atomic_store
           [("x", VStr "A"); ("y", VStr "B"); ("z", VStr "C");
            ("seq_no", VInt 8); ("dow", VInt 6)]
           [("x", VStr "A"); ("y", VStr "B"); ("z", VStr "C");
            ("seq_no", VInt 1); ("dow", VInt 2)]
           [VStr "A"; VStr "B"; VStr "C"]).
  - simpl. right. left. reflexivity.
  - reflexivity.
  - simpl. left. reflexivity.
  - reflexivity.
Defined.
End GroupAtomicity.

(** ** Key equivalence: KSRENON and RENO NORTH *)

Section RowsOnly.



End RowsOnly.


Section Equivalence.
Import Dedup.


(** *** [dict(zip(...))] over distinct fields *)

Lemma dict_set_fresh (d : list (string * value)) (k : string) (v : value) :
  ~ In k (map fst d) -> dict_set String.eqb d k v = d ++ [(k, v)].
Proof.
  induction d as [|[k' v'] d IH]; simpl; intros Hnot; [reflexivity|].
  destruct (String.eqb_spec k' k) as [->|_]; [tauto|].
  rewrite IH; [reflexivity | tauto].
Qed.

Lemma dict_of_zip_from (ks : list string) :
  forall (vs : list value) (acc : list (string * value)),
    NoDup ks ->
    (forall k, In k ks -> ~ In k (map fst acc)) ->
    fold_left (fun d kv => dict_set String.eqb d (fst kv) (snd kv))
              (combine ks vs) acc
    = acc ++ combine ks vs.
Proof.
  induction ks as [|k ks IH]; intros vs acc Hnd Hfresh; simpl.
  - now rewrite app_nil_r.
  - destruct vs as [|v vs]; simpl; [now rewrite app_nil_r|].
    inversion Hnd as [|? ? Hk Hnd']; subst.
    rewrite dict_set_fresh by (apply Hfresh; now left).
    rewrite IH; [now rewrite <- app_assoc | assumption |].
    intros k' Hk'. rewrite map_app, in_app_iff. simpl.
    intros [Hin|[<-|[]]]; [|contradiction].
    apply (Hfresh k'); [now right | assumption].
Qed.

Lemma dict_of_zip_nodup (ks : list string) (vs : list value) :
  NoDup ks -> dict_of_zip String.eqb ks vs = combine ks vs.
Proof.
  intros Hnd. unfold dict_of_zip.
  rewrite dict_of_zip_from; [reflexivity | assumption | easy].
Qed.

Lemma dict_get_In_fst (d : list (string * value)) (k : string) (v : value) :
  dict_get String.eqb d k = Some v -> In k (map fst d).
Proof.
  induction d as [|[k' v'] d IH]; simpl; [discriminate|].
  destruct (String.eqb_spec k' k) as [->|_]; [now left|].
  intros H. right. now apply IH.
Qed.

Lemma replace_absent (d : list (string * value)) (k : string) (v : value) :
  ~ In k (map fst d) ->
  map (fun fx => if String.eqb (fst fx) k then v else snd fx) d = map snd d.
Proof.
  induction d as [|[k' v'] d IH]; simpl; intros Hnot; [reflexivity|].
  destruct (String.eqb_spec k' k) as [->|_]; [tauto|].
  rewrite IH; [reflexivity | tauto].
Qed.

Lemma dict_set_values (d : list (string * value)) (k : string) (v : value) :
  NoDup (map fst d) -> In k (map fst d) ->
  dict_values (dict_set String.eqb d k v)
  = map (fun fx => if String.eqb (fst fx) k then v else snd fx) d.
Proof.
  unfold dict_values.
  induction d as [|[k' v'] d IH]; simpl; intros Hnd Hin; [easy|].
  inversion Hnd as [|? ? Hk Hnd']; subst.
  destruct (String.eqb_spec k' k) as [->|Hne]; simpl.
  - now rewrite replace_absent.
  - rewrite IH; [reflexivity | assumption |].
    destruct Hin as [->|Hin]; [congruence | assumption].
Qed.

Lemma map_fst_combine_nodup (ks : list string) :
  forall vs : list value, NoDup ks -> NoDup (map fst (combine ks vs)).
Proof.
  induction ks as [|k ks IH]; intros vs Hnd; simpl; [constructor|].
  destruct vs as [|v vs]; simpl; [constructor|].
  inversion Hnd as [|? ? Hk Hnd']; subst. constructor; [|now apply IH].
  intros Hin. apply Hk. clear -Hin. revert vs Hin.
  induction ks as [|k' ks IH]; intros [|v vs]; simpl; try easy.
  intros [->|Hin]; [now left | right; now apply (IH vs)].
Qed.

(** On distinct fields, the key a [copy] yields is the group key with
    the identifier replaced. *)
Lemma with_id_replace (fields : list string) (gkey : key)
      (id_field : string) (old : value) (v : string) :
  NoDup fields ->
  dict_get String.eqb (combine fields gkey) id_field = Some old ->
  with_id (dict_of_zip String.eqb fields gkey) id_field v
  = replace_id fields gkey id_field (VStr v).
Proof.
  intros Hnd Hget. unfold with_id, replace_id.
  rewrite dict_of_zip_nodup by assumption.
  apply dict_set_values.
  - now apply map_fst_combine_nodup.
  - now apply dict_get_In_fst in Hget.
Qed.



(** *** A stored candidate is found *)







End Equivalence.

(** ** More on the group key deriver *)

Section FieldsBeforeMore.
Import Dedup.

Lemma index_cases (fields : list string) (pivot : string) :
  (exists pre post,
      fields = pre ++ pivot :: post /\ ~ In pivot pre
      /\ index fields pivot = Ok (List.length pre))
  \/ (~ In pivot fields /\ index fields pivot = Raise ValueError).
Proof.
  induction fields as [|f fields IH]; simpl.
  - right. split; [easy | reflexivity].
  - destruct (String.eqb_spec f pivot) as [->|Hne].
    + left. exists [], fields. repeat split. easy.
    + destruct IH as [(pre & post & -> & Hnot & ->)|[Hnot ->]].
      * left. exists (f :: pre), post. repeat split.
        intros [H|H]; [congruence | contradiction].
      * right. split; [|reflexivity]. intros [H|H]; [congruence | contradiction].
Qed.

(** X1. [fields_before] never raises; what it returns is a prefix of the
    fields that does not hold the pivot, and applying it again changes
    nothing. *)
Theorem fields_before_prefix (fields : list string) (pivot : string) :
  exists pre rest,
    fields_before fields pivot = Ok pre
    /\ fields = pre ++ rest
    /\ ~ In pivot pre
    /\ fields_before pre pivot = Ok pre.
Proof.
  destruct (index_cases fields pivot)
    as [(pre & post & -> & Hnot & Hi)|[Hnot Hi]].
  - exists pre, (pivot :: post). unfold fields_before. rewrite Hi.
    rewrite firstn_app, firstn_all, Nat.sub_diag, firstn_0, app_nil_r.
    repeat split; [assumption|].
    now rewrite (index_absent pre pivot Hnot).
  - exists fields, []. unfold fields_before. rewrite Hi, app_nil_r.
    repeat split. assumption.
Qed.
End FieldsBeforeMore.

(** ** More on the probe predicate *)

Section BuildSelectOneMore.
Import Dedup.

Lemma where_holds_filtered (x : pyrow) (cvs : list (string * value)) :
  where_holds
    (map (fun cv => {| cond_col := fst cv; cond_op := CmpEq |})
         (filter (fun cv => negb (is_none (snd cv))) cvs))
    (map snd (filter (fun cv => negb (is_none (snd cv))) cvs)) x
  = forallb (fun cv => is_none (snd cv)
                       || value_eqb (row_get x (fst cv)) (snd cv)) cvs.
Proof.
  induction cvs as [|[col val] cvs IH]; simpl; [reflexivity|].
  destruct val as [|sv|z]; simpl; rewrite IH; try reflexivity.
  - f_equal. destruct (row_get x col); reflexivity.
  - f_equal. destruct (row_get x col); reflexivity.
Qed.



(** X3. A stored row satisfies the probe [build_select_one] returns exactly
    when it holds, on every column whose key value is not [None], that
    value; the columns whose key value is [None] do not count. *)
Theorem build_select_one_holds_iff
        (table : string) (columns : list string) (values : list value)
        (q : select) (params : list value) (x : pyrow) :
  build_select_one table columns values = Ok (q, params) ->
  select_holds q params x = true
  <-> forall c v, In (c, v) (combine columns values) -> v <> VNone ->
                  row_get x c = v.
Proof.
  unfold build_select_one. destruct (negb _); [discriminate|].
  rewrite select_parts_spec. intros H. injection H as <- <-.
  unfold select_holds. simpl. rewrite andb_true_r, where_holds_filtered.
  rewrite forallb_forall. split.
  - intros H c v Hin Hv. specialize (H (c, v) Hin). simpl in H.
    destruct v; [congruence | |]; simpl in H; now apply value_eqb_eq in H.
  - intros H [c v] Hin. simpl. destruct v as [|sv|z]; [reflexivity | |];
      simpl; apply value_eqb_eq; apply H; (assumption || discriminate).
Qed.

Lemma build_select_one_holds_iff_witness :
  select_holds
    {| sel_text := "SELECT * FROM waypoints WHERE waypoint_id = ? LIMIT 1";
       sel_where := [{| cond_col := "waypoint_id"; cond_op := CmpEq |}];
       sel_like := None |}
    [VStr "NOHEA"] Examples.waypoint_stored = true
  <-> forall c v,
      In (c, v) (combine Examples.waypoint_columns Examples.waypoint_key) ->
      v <> VNone -> row_get Examples.waypoint_stored c = v.
Proof.
  apply (build_select_one_holds_iff
           "waypoints" Examples.waypoint_columns Examples.waypoint_key).
  reflexivity.
Defined.
End BuildSelectOneMore.

(** ** Bucketing the batch *)

Section Buckets.
Import Dedup.

Lemma key_eqb_refl (k : key) : key_eqb k k = true.
Proof. now apply key_eqb_eq. Qed.

Lemma key_eqb_neq (a b : key) : key_eqb a b = false <-> a <> b.
Proof.
  split.
  - intros H Heq. apply key_eqb_eq in Heq. congruence.
  - intros H. destruct (key_eqb a b) eqn:E; [|reflexivity].
    apply key_eqb_eq in E. contradiction.
Qed.

Lemma existsb_key_In (k : key) (ks : list key) :
  existsb (key_eqb k) ks = true <-> In k ks.
Proof.
  rewrite existsb_exists. split.
  - intros (k' & Hin & E). apply key_eqb_eq in E. now subst.
  - intros Hin. exists k. split; [assumption | apply key_eqb_refl].
Qed.

Lemma set_add_NoDup (acc : list key) (k : key) :
  NoDup acc -> NoDup (set_add acc k).
Proof.
  intros Hnd. unfold set_add.
  destruct (existsb (key_eqb k) acc) eqn:E; [assumption|].
  apply NoDup_app; [assumption | repeat constructor; easy |].
  intros x Hx [<-|[]].
  apply existsb_key_In in Hx. congruence.
Qed.

Lemma set_update_NoDup (new acc : list key) :
  NoDup acc -> NoDup (set_update acc new).
Proof.
  unfold set_update. revert acc.
  induction new as [|k new IH]; intros acc Hnd; simpl; [assumption|].
  now apply IH, set_add_NoDup.
Qed.

Lemma rmap_app {A B} (f : A -> result B) (xs ys : list A) :
  rmap f (xs ++ ys)
  = rbind (rmap f xs) (fun xs' =>
    rbind (rmap f ys) (fun ys' => Ok (xs' ++ ys'))).
Proof.
  induction xs as [|x xs IH]; simpl.
  - now destruct (rmap f ys).
  - destruct (f x) as [y|e]; simpl; [|reflexivity]. rewrite IH.
    destruct (rmap f xs) as [xs'|e]; simpl; [|reflexivity].
    now destruct (rmap f ys).
Qed.

Lemma has_key_of (fields : list string) (r : pyrow) (k gk : key) :
  group_key fields r = Ok k -> has_key fields gk r = key_eqb k gk.
Proof. intros H. unfold has_key. now rewrite H. Qed.

Lemma filter_has_key_snoc (fields : list string) (seen : list pyrow)
      (r : pyrow) (k k' : key) :
  group_key fields r = Ok k ->
  filter (has_key fields k') (seen ++ [r])
  = filter (has_key fields k') seen ++ (if key_eqb k k' then [r] else []).
Proof.
  intros Hk. rewrite filter_app. simpl.
  rewrite (has_key_of fields r k k' Hk). now destruct (key_eqb k k').
Qed.

Lemma buckets_other_keys (fields : list string) (seen : list pyrow)
      (r : pyrow) (k : key) (ks : list key) :
  group_key fields r = Ok k ->
  ~ In k ks ->
  map (fun k' => (k', filter (has_key fields k') (seen ++ [r]))) ks
  = map (fun k' => (k', filter (has_key fields k') seen)) ks.
Proof.
  intros Hk Hnot. apply map_ext_in. intros k' Hin.
  rewrite (filter_has_key_snoc fields seen r k k' Hk).
  assert (E : key_eqb k k' = false)
    by (apply key_eqb_neq; intros ->; contradiction).
  now rewrite E, app_nil_r.
Qed.

Lemma bucket_add_new_key (rs_of : key -> list pyrow) (r : pyrow) (k : key)
      (ks : list key) :
  ~ In k ks ->
  bucket_add (map (fun k' => (k', rs_of k')) ks) k r
  = map (fun k' => (k', rs_of k')) ks ++ [(k, [r])].
Proof.
  induction ks as [|k' ks IH]; simpl; intros Hnot; [reflexivity|].
  assert (E : key_eqb k' k = false)
    by (apply key_eqb_neq; intros ->; apply Hnot; now left).
  rewrite E, IH; [reflexivity|]. intros H. apply Hnot. now right.
Qed.

(** Adding a row to buckets that hold, key by key, the rows seen so far. *)
Lemma bucket_add_seen (fields : list string) (seen : list pyrow)
      (r : pyrow) (k : key) (ks : list key) :
  group_key fields r = Ok k ->
  NoDup ks ->
  (~ In k ks -> filter (has_key fields k) seen = []) ->
  bucket_add (map (fun k' => (k', filter (has_key fields k') seen)) ks) k r
  = map (fun k' => (k', filter (has_key fields k') (seen ++ [r])))
        (set_add ks k).
Proof.
  intros Hk Hnd Hcov. unfold set_add.
  destruct (existsb (key_eqb k) ks) eqn:E.
  - apply existsb_key_In in E. clear Hcov.
    induction ks as [|k' ks IH]; [easy|]. simpl.
    inversion Hnd as [|? ? Hk' Hnd']; subst.
    destruct (key_eqb k' k) eqn:E'.
    + apply key_eqb_eq in E'. subst k'.
      rewrite (buckets_other_keys fields seen r k ks Hk Hk').
      rewrite (filter_has_key_snoc fields seen r k k Hk), key_eqb_refl.
      reflexivity.
    + destruct E as [->|E]; [now rewrite key_eqb_refl in E'|].
      rewrite (IH Hnd' E).
      rewrite (filter_has_key_snoc fields seen r k k' Hk).
      assert (E2 : key_eqb k k' = false).
      { apply key_eqb_neq. apply key_eqb_neq in E'. congruence. }
      now rewrite E2, app_nil_r.
  - assert (Hnot : ~ In k ks).
    { intros H. apply existsb_key_In in H. congruence. }
    rewrite bucket_add_new_key by assumption.
    rewrite map_app. simpl.
    rewrite (buckets_other_keys fields seen r k ks Hk Hnot).
    rewrite (filter_has_key_snoc fields seen r k k Hk), key_eqb_refl.
    now rewrite (Hcov Hnot).
Qed.

Lemma filter_has_key_unseen (fields : list string) (seen : list pyrow)
      (ks : list key) (k : key) :
  rmap (group_key fields) seen = Ok ks ->
  ~ In k ks ->
  filter (has_key fields k) seen = [].
Proof.
  revert ks. induction seen as [|r seen IH]; simpl; intros ks H Hnot;
    [reflexivity|].
  destruct (group_key fields r) as [k'|e] eqn:G; [|discriminate]. simpl in H.
  destruct (rmap (group_key fields) seen) as [ks'|e]; [|discriminate].
  simpl in H. injection H as <-.
  rewrite (has_key_of fields r k' k G).
  assert (E : key_eqb k' k = false)
    by (apply key_eqb_neq; intros ->; apply Hnot; now left).
  rewrite E. apply (IH ks'); [reflexivity|]. intros H. apply Hnot. now right.
Qed.

Lemma bucket_from_seen (fields : list string) (rows : list pyrow) :
  forall (seen : list pyrow) (ks_seen ks : list key),
    rmap (group_key fields) seen = Ok ks_seen ->
    rmap (group_key fields) rows = Ok ks ->
    bucket fields rows
           (map (fun k => (k, filter (has_key fields k) seen))
                (set_update [] ks_seen))
    = Ok (map (fun k => (k, filter (has_key fields k) (seen ++ rows)))
              (set_update [] (ks_seen ++ ks))).
Proof.
  induction rows as [|r rows IH]; simpl; intros seen ks_seen ks Hseen Hrows.
  - injection Hrows as <-. now rewrite !app_nil_r.
  - destruct (group_key fields r) as [k|e] eqn:G; [|discriminate].
    simpl in Hrows |- *.
    destruct (rmap (group_key fields) rows) as [ks'|e] eqn:R; [|discriminate].
    simpl in Hrows. injection Hrows as <-.
    rewrite (bucket_add_seen fields seen r k (set_update [] ks_seen) G).
    + assert (Hseen' : rmap (group_key fields) (seen ++ [r])
                       = Ok (ks_seen ++ [k])).
      { rewrite rmap_app, Hseen. simpl. now rewrite G. }
      replace (set_add (set_update [] ks_seen) k)
        with (set_update [] (ks_seen ++ [k]))
        by (unfold set_update; now rewrite fold_left_app).
      rewrite (IH (seen ++ [r]) (ks_seen ++ [k]) ks' Hseen' eq_refl).
      now rewrite <- !app_assoc.
    + apply set_update_NoDup. constructor.
    + intros Hnot. apply (filter_has_key_unseen fields seen ks_seen k Hseen).
      intros Hin. apply Hnot. apply set_update_In. now right.
Qed.

Lemma bucket_closed_form (fields : list string) (rows : list pyrow)
      (ks : list key) :
  rmap (group_key fields) rows = Ok ks ->
  bucket fields rows []
  = Ok (map (fun k => (k, filter (has_key fields k) rows))
            (set_update [] ks)).
Proof. intros H. apply (bucket_from_seen fields rows [] [] ks eq_refl H). Qed.

(** X4. The buckets of a batch whose rows all have the group fields: one per
    distinct key, in order of first appearance, each holding the rows
    with that key in batch order. *)
Theorem bucket_spec (fields : list string) (rows : list pyrow)
        (ks : list key) :
  rmap (group_key fields) rows = Ok ks ->
  bucket fields rows []
  = Ok (map (fun k => (k, filter (has_key fields k) rows))
            (set_update [] ks))
  /\ NoDup (set_update [] ks)
  /\ forall k, In k (set_update [] ks) <-> In k ks.
Proof.
  intros H. split; [|split].
  - now apply bucket_closed_form.
  - apply set_update_NoDup. constructor.
  - intros k. rewrite set_update_In. simpl. tauto.
Qed.

Lemma bucket_spec_witness :
  bucket Examples.demo_fields Examples.demo_batch []
  = Ok (map (fun k => (k, filter (has_key Examples.demo_fields k)
                                 Examples.demo_batch))
            (set_update [] [ [VStr "A"; VStr "B"; VStr "C"];
                             [VStr "A"; VStr "B"; VStr "C"] ]))
  /\ NoDup (set_update [] [ [VStr "A"; VStr "B"; VStr "C"];
                            [VStr "A"; VStr "B"; VStr "C"] ])
  /\ forall k, In k (set_update [] [ [VStr "A"; VStr "B"; VStr "C"];
                                     [VStr "A"; VStr "B"; VStr "C"] ])
               <-> In k [ [VStr "A"; VStr "B"; VStr "C"];
                          [VStr "A"; VStr "B"; VStr "C"] ].
Proof.
  apply (bucket_spec Examples.demo_fields Examples.demo_batch
                     [ [VStr "A"; VStr "B"; VStr "C"];
                       [VStr "A"; VStr "B"; VStr "C"] ]).
  reflexivity.
Defined.
End Buckets.

(** ** The load call: errors and frame *)

Section LoadFrame.
Import Dedup.

(** X5. A load call on a non-empty batch returns [True] or raises: it never
    returns [False], whether or not an insert was issued. *)
Theorem nonempty_load_true_or_raises
        (table : string) (rows : list pyrow) (group_fields : list string)
        (s : store) :
  rows <> [] ->
  fst (insert_groups_with_conflict_report table rows group_fields s) = Ok true
  \/ exists e,
      fst (insert_groups_with_conflict_report table rows group_fields s)
      = Raise e.
Proof.
  intros Hne.
  destruct (fst (insert_groups_with_conflict_report table rows group_fields s))
    as [b|e] eqn:E; [left | right; now exists e].
  now rewrite (nonempty_load_returns_true table rows group_fields s b Hne E).
Qed.

Lemma nonempty_load_true_or_raises_witness :
  fst (insert_groups_with_conflict_report
         "time_of_op" Examples.atomic_batch Examples.demo_fields
         Examples.atomic_store) = Ok true
  \/ exists e,
      fst (insert_groups_with_conflict_report
             "time_of_op" Examples.atomic_batch Examples.demo_fields
             Examples.atomic_store) = Raise e.
Proof.
  apply (nonempty_load_true_or_raises
           "time_of_op" Examples.atomic_batch Examples.demo_fields
           Examples.atomic_store).
  discriminate.
Defined.

Lemma group_key_raises_key_error (fields : list string) (r : pyrow) (e : exn) :
  group_key fields r = Raise e -> e = KeyError.
Proof.
  unfold group_key. induction fields as [|f fields IH]; simpl; [discriminate|].
  unfold row_item at 1. destruct (dict_get String.eqb r f); simpl.
  - destruct (rmap (row_item r) fields); simpl; [discriminate|].
    intros H. injection H as <-. now apply IH.
  - intros H. now injection H as <-.
Qed.

Lemma group_key_missing (fields : list string) (r : pyrow) (f : string) :
  In f fields -> dict_get String.eqb r f = None ->
  group_key fields r = Raise KeyError.
Proof.
  intros Hin Hnone.
  destruct (group_key fields r) as [k|e] eqn:G.
  - destruct (rmap_In _ _ _ f G Hin) as [v Hv].
    unfold row_item in Hv. rewrite Hnone in Hv. discriminate.
  - now rewrite (group_key_raises_key_error fields r e G).
Qed.

Lemma bucket_raises (fields : list string) (rows : list pyrow) (r : pyrow) :
  In r rows -> group_key fields r = Raise KeyError ->
  forall acc, bucket fields rows acc = Raise KeyError.
Proof.
  induction rows as [|r' rows IH]; simpl; intros Hin Hr acc; [easy|].
  destruct (group_key fields r') as [k|e] eqn:G; simpl.
  - destruct Hin as [->|Hin]; [congruence|]. now apply IH.
  - now rewrite (group_key_raises_key_error fields r' e G).
Qed.

(** X6. When some row of the batch lacks a group field, the load call raises
    [KeyError] before any group is looked at: the table is as it was and
    no insert is issued. *)
Theorem load_missing_field_raises
        (table : string) (rows : list pyrow) (group_fields : list string)
        (s : store) (r : pyrow) (f : string) :
  In r rows ->
  In f group_fields ->
  dict_get String.eqb r f = None ->
  fst (insert_groups_with_conflict_report table rows group_fields s)
  = Raise KeyError
  /\ same_table s (snd (insert_groups_with_conflict_report
                          table rows group_fields s)).
Proof.
  intros Hin Hf Hnone.
  pose proof (bucket_raises group_fields rows r Hin
                (group_key_missing group_fields r f Hf Hnone) []) as B.
  unfold insert_groups_with_conflict_report.
  destruct rows as [|row0 rows]; [easy|].
  unfold bind, lift.
  pose proof (_unique_indexes_keeps table s) as U.
  destruct (_unique_indexes table s) as [[uniques|e] s1] eqn:E.
  - rewrite B. simpl. split; [reflexivity | exact U].
  - unfold _unique_indexes in E. discriminate.
Qed.

Lemma load_missing_field_raises_witness :
  fst (insert_groups_with_conflict_report
         "time_of_op"
         (Examples.demo_batch ++ [[("x", VStr "A"); ("z", VStr "C")]])
         Examples.demo_fields Examples.empty_store)
  = Raise KeyError
  /\ same_table Examples.empty_store
       (snd (insert_groups_with_conflict_report
               "time_of_op"
               (Examples.demo_batch ++ [[("x", VStr "A"); ("z", VStr "C")]])
               Examples.demo_fields Examples.empty_store)).
Proof.
  apply (load_missing_field_raises
           "time_of_op"
           (Examples.demo_batch ++ [[("x", VStr "A"); ("z", VStr "C")]])
           Examples.demo_fields Examples.empty_store
           [("x", VStr "A"); ("z", VStr "C")] "y").
  - simpl. right. right. left. reflexivity.
  - simpl. right. left. reflexivity.
  - reflexivity.
Defined.

Lemma rmap_all_ok {A B} (f : A -> result B) (xs : list A) :
  (forall x, In x xs -> exists y, f x = Ok y) ->
  exists ys, rmap f xs = Ok ys.
Proof.
  induction xs as [|x xs IH]; intros H; simpl; [now exists []|].
  destruct (H x (or_introl eq_refl)) as [y ->].
  destruct IH as [ys ->]; [intros x' Hx'; apply H; now right|].
  now exists (y :: ys).
Qed.

Lemma bucket_rows (fields : list string) (rows : list pyrow)
      (groups : list (key * list pyrow)) :
  bucket fields rows [] = Ok groups ->
  forall gk rs r, In (gk, rs) groups -> In r rs -> In r rows.
Proof.
  intros B gk rs r Hg Hr.
  destruct (bucket_well fields rows [] groups) as [_ Hall];
    [easy | assumption |].
  destruct (rmap_all_ok (group_key fields) rows Hall) as [ks Hks].
  pose proof (bucket_closed_form fields rows ks Hks) as B'.
  rewrite B in B'. injection B' as ->.
  apply in_map_iff in Hg as (k & Hk & _). injection Hk as <- <-.
  now apply filter_In in Hr as [Hr _].
Qed.

Lemma extends_by_weaken (P Q : pyrow -> Prop) (s s' : store) :
  (forall y, P y -> Q y) -> extends_by P s s' -> extends_by Q s s'.
Proof.
  intros HPQ (Hu & added & Hr & HP). split; [assumption|].
  exists added. split; [assumption|]. revert HP. now apply Forall_impl.
Qed.

(** X7. A load call never removes or rewrites a stored row and never touches
    the indexes: the table ends as its old rows followed by rows of the
    batch, each bound on the columns of the batch's first row. *)
Theorem load_only_appends
        (table : string) (rows : list pyrow) (group_fields : list string)
        (s : store) :
  extends_by
    (fun y => exists r, In r rows
                        /\ bind_named (dict_keys (hd [] rows)) r = Ok y)
    s (snd (insert_groups_with_conflict_report table rows group_fields s)).
Proof.
  unfold insert_groups_with_conflict_report.
  destruct rows as [|row0 rows]; [apply extends_by_refl|].
  cbn [hd].
  apply keeps_bind; [table_rel | |intros uniques].
  { apply keeps_same_table_extends, _unique_indexes_keeps. }
  intros s1. unfold bind, lift.
  destruct (bucket group_fields (row0 :: rows) []) as [groups|e] eqn:B;
    [|apply extends_by_refl].
  enough (K : keeps
                (extends_by
                   (fun y => exists r, In r (row0 :: rows)
                                       /\ bind_named (dict_keys row0) r = Ok y))
                (for_each (process_group table group_fields uniques
                                         (dict_keys row0)) groups)).
  { specialize (K s1).
    destruct (for_each _ groups s1) as [[[]|e] s2]; exact K. }
  apply keeps_for_each; [table_rel | table_rel |].
  intros [gk rs] Hg s2.
  apply extends_by_weaken
    with (P := fun y => exists r, In r rs
                                  /\ bind_named (dict_keys row0) r = Ok y).
  - intros y (r & Hr & Hb). exists r. split; [|assumption].
    now apply (bucket_rows group_fields (row0 :: rows) groups B gk rs r).
  - apply process_group_adds.
Qed.

(** *** A key of [None]s *)

Lemma dict_set_all_none (d : list (string * value)) (f : string) :
  Forall (fun kv => snd kv = VNone) d ->
  Forall (fun kv => snd kv = VNone) (dict_set String.eqb d f VNone).
Proof.
  induction 1 as [|[f' v'] d Hv Hd IH]; simpl.
  - repeat constructor.
  - destruct (String.eqb f' f); constructor; auto.
Qed.

Lemma dict_of_zip_all_none (fields : list string) (k : key) :
  Forall (fun v => v = VNone) k ->
  Forall (fun kv => snd kv = VNone) (dict_of_zip String.eqb fields k).
Proof.
  intros Hk. unfold dict_of_zip.
  assert (H : forall cvs acc,
             Forall (fun kv : string * value => snd kv = VNone) cvs ->
             Forall (fun kv : string * value => snd kv = VNone) acc ->
             Forall (fun kv : string * value => snd kv = VNone)
                    (fold_left (fun d kv => dict_set String.eqb d (fst kv)
                                                     (snd kv)) cvs acc)).
  { induction cvs as [|[f v] cvs IH]; intros acc Hc Ha; simpl; [assumption|].
    inversion Hc as [|? ? Hv Hc']; subst. simpl in Hv. subst v.
    apply IH; [assumption | now apply dict_set_all_none]. }
  apply H; [|constructor].
  now apply (combine_all_none fields k).
Qed.

Lemma dict_get_all_none (d : list (string * value)) (f : string) :
  Forall (fun kv => snd kv = VNone) d ->
  match dict_get String.eqb d f with Some v => v | None => VNone end = VNone.
Proof.
  induction 1 as [|[f' v'] d Hv Hd IH]; simpl; [reflexivity|].
  destruct (String.eqb f' f); [exact Hv | exact IH].
Qed.

(** A key that holds only [None] has no identifier to expand. *)
Lemma candidate_keys_none_key (table : string) (fields : list string)
      (gkey : key) (first_row : pyrow) :
  Forall (fun v => v = VNone) gkey ->
  candidate_keys table fields gkey first_row
  = Ok {| gkeys := [gkey]; id_field_str := None; name_field := None;
          _name := VNone |}.
Proof.
  intros Hk. unfold candidate_keys.
  destruct (filter (fun c => Str.endswith c "_id") fields) as [|id0 ids];
    [reflexivity|].
  rewrite (dict_get_all_none _ id0 (dict_of_zip_all_none fields gkey Hk)).
  simpl. now rewrite andb_false_r.
Qed.

Lemma set_update_head (new : list key) :
  forall (k0 : key) (acc : list key),
  exists rest, set_update (k0 :: acc) new = k0 :: rest.
Proof.
  unfold set_update.
  induction new as [|k new IH]; intros k0 acc; simpl; [now exists acc|].
  unfold set_add at 2.
  destruct (existsb (key_eqb k) (k0 :: acc)); [apply IH|].
  apply (IH k0 (acc ++ [k])).
Qed.

(** X8. When every row has the group fields and the key of the first row
    holds only [None] -- as it does when there are no group fields -- the
    first probe has an empty [WHERE] clause: the load call raises
    [OperationalError], and the table is as it was. *)
Theorem load_none_key_raises
        (table : string) (row0 : pyrow) (rows : list pyrow)
        (group_fields : list string) (k0 : key) (ks : list key) (s : store) :
  rmap (group_key group_fields) (row0 :: rows) = Ok (k0 :: ks) ->
  Forall (fun v => v = VNone) k0 ->
  fst (insert_groups_with_conflict_report table (row0 :: rows)
                                          group_fields s)
  = Raise OperationalError
  /\ same_table s (snd (insert_groups_with_conflict_report
                          table (row0 :: rows) group_fields s)).
Proof.
  intros Hks Hnone.
  pose proof (bucket_closed_form group_fields (row0 :: rows) (k0 :: ks) Hks)
    as B.
  assert (Hlen : List.length group_fields = List.length k0).
  { simpl in Hks.
    destruct (group_key group_fields row0) as [k|e] eqn:G; [|discriminate].
    simpl in Hks.
    destruct (rmap (group_key group_fields) rows); [|discriminate].
    simpl in Hks. injection Hks as <- _.
    symmetry. exact (rmap_length _ _ _ G). }
  destruct (set_update_head ks k0 []) as [rest Hhead].
  change (set_update [k0] ks) with (set_update [] (k0 :: ks)) in Hhead.
  rewrite Hhead in B. cbn [map] in B.
  assert (P : forall uniques s1,
             process_group table group_fields uniques (dict_keys row0)
               (k0, filter (has_key group_fields k0) (row0 :: rows)) s1
             = (Raise OperationalError,
                log_event
                  (EvSelect ("SELECT * FROM " ++ table ++ " WHERE  LIMIT 1")
                            []) s1)).
  { intros uniques s1. unfold process_group, bind, lift.
    rewrite (candidate_keys_none_key table group_fields k0 _ Hnone).
    cbn [gkeys probe_loop]. unfold bind, probe_candidate, bind, lift.
    unfold build_select_one. rewrite Hlen, Nat.eqb_refl. cbn [negb].
    rewrite (select_parts_all_none _ (combine_all_none group_fields k0 Hnone)).
    reflexivity. }
  unfold insert_groups_with_conflict_report, bind, lift.
  pose proof (_unique_indexes_keeps table s) as U.
  destruct (_unique_indexes table s) as [[uniques|e] s1] eqn:E;
    [|unfold _unique_indexes in E; discriminate].
  rewrite B. cbn [for_each]. unfold bind. rewrite P.
  cbn [fst snd]. split; [reflexivity|].
  apply same_table_trans with (s2 := s1); [exact U|].
  now apply log_event_same_table.
Qed.

Lemma load_none_key_raises_witness :
  fst (insert_groups_with_conflict_report
         "time_of_op" Examples.demo_batch [] Examples.empty_store)
  = Raise OperationalError
  /\ same_table Examples.empty_store
       (snd (insert_groups_with_conflict_report
               "time_of_op" Examples.demo_batch [] Examples.empty_store)).
Proof.
  apply (load_none_key_raises
           "time_of_op"
           [("x", VStr "A"); ("y", VStr "B"); ("z", VStr "C");
            ("seq_no", VInt 1); ("dow", VInt 2); ("start_min", VInt 600);
            ("end_min", VInt 720)]
           [[("x", VStr "A"); ("y", VStr "B"); ("z", VStr "C");
             ("seq_no", VInt 2); ("dow", VInt 3); ("start_min", VInt 800);
             ("end_min", VInt 900)]]
           [] [] [[]] Examples.empty_store).
  - reflexivity.
  - constructor.
Defined.

(** *** How many inserts *)

Lemma inserts_within_same (s s' : store) :
  same_table s s' -> inserts_within 0 s s'.
Proof. intros (_ & _ & H). unfold inserts_within. rewrite H. lia. Qed.

Lemma inserts_within_add (a b : nat) (s1 s2 s3 : store) :
  inserts_within a s1 s2 -> inserts_within b s2 s3 ->
  inserts_within (a + b) s1 s3.
Proof. unfold inserts_within. lia. Qed.

Lemma inserts_within_le (a b : nat) (s s' : store) :
  a <= b -> inserts_within a s s' -> inserts_within b s s'.
Proof. unfold inserts_within. lia. Qed.

Lemma insert_within_one (text : string) (cols : list string)
      (rows : list pyrow) (s : store) :
  inserts_within 1 s
    (snd (with_connection (executemany_insert true text cols rows) s)).
Proof.
  unfold with_connection, executemany_insert, inserts_within.
  destruct (insert_rows true cols rows (map snd (st_uniques s)) (st_rows s) 0)
    as [[n|e] db]; simpl; rewrite filter_app, length_app; simpl; lia.
Qed.

Lemma process_group_within_one (table : string) (fields : list string)
      (unique_indexes : list (list string)) (cols : list string)
      (g : key * list pyrow) (s : store) :
  inserts_within 1 s
    (snd (process_group table fields unique_indexes cols g s)).
Proof.
  destruct g as [gkey grp_rows]. unfold process_group, bind, lift.
  destruct (candidate_keys table fields gkey (hd [] grp_rows)) as [c|e];
    [|apply inserts_within_le with (a := 0); [lia|];
      apply inserts_within_same, same_table_refl].
  pose proof (probe_loop_keeps table fields c (hd [] grp_rows) (gkeys c)
                               gkey s) as K.
  destruct (probe_loop table fields c (hd [] grp_rows) (gkeys c) gkey s)
    as [[[exists_ gkey']|e] s1]; simpl in K;
    try (apply inserts_within_le with (a := 0); [lia|];
         now apply inserts_within_same).
  destruct exists_;
    [apply inserts_within_le with (a := 0); [lia|];
     now apply inserts_within_same|].
  apply inserts_within_same in K.
  pose proof (insert_within_one (insert_sql table cols) cols grp_rows s1) as I.
  destruct (with_connection
              (executemany_insert true (insert_sql table cols) cols grp_rows)
              s1) as [[n|e] s2]; simpl in I |- *.
  - pose proof (inserts_within_add 0 1 s s1 s2 K I) as KI.
    destruct (Nat.eqb n (List.length grp_rows)); [exact KI|].
    pose proof (diagnose_keeps table fields unique_indexes gkey' grp_rows s2)
      as D.
    apply inserts_within_same in D.
    exact (inserts_within_add 1 0 s s2 _ KI D).
  - exact (inserts_within_add 0 1 s s1 s2 K I).
Qed.

Lemma groups_within (table : string) (fields : list string)
      (unique_indexes : list (list string)) (cols : list string)
      (groups : list (key * list pyrow)) :
  forall s,
    inserts_within (List.length groups) s
      (snd (for_each (process_group table fields unique_indexes cols)
                     groups s)).
Proof.
  induction groups as [|g groups IH]; intros s.
  - apply inserts_within_same, same_table_refl.
  - rewrite for_each_cons_snd.
    pose proof (process_group_within_one table fields unique_indexes cols g s)
      as P.
    destruct (process_group table fields unique_indexes cols g s)
      as [[[]|e] s1]; simpl in P.
    + exact (inserts_within_add 1 _ s s1 _ P (IH s1)).
    + apply inserts_within_le with (a := 1); [simpl; lia | exact P].
Qed.

(** X9. A load call issues at most one insert per distinct group key of the
    batch. *)
Theorem load_inserts_once_per_key
        (table : string) (rows : list pyrow) (group_fields : list string)
        (ks : list key) (s : store) :
  rmap (group_key group_fields) rows = Ok ks ->
  inserts_within (List.length (set_update [] ks)) s
    (snd (insert_groups_with_conflict_report table rows group_fields s)).
Proof.
  intros Hks.
  pose proof (bucket_closed_form group_fields rows ks Hks) as B.
  unfold insert_groups_with_conflict_report.
  destruct rows as [|row0 rows].
  - apply inserts_within_le with (a := 0); [lia|].
    apply inserts_within_same, same_table_refl.
  - unfold bind, lift.
    pose proof (_unique_indexes_keeps table s) as U.
    destruct (_unique_indexes table s) as [[uniques|e] s1]; simpl in U;
      [|apply inserts_within_le with (a := 0); [lia|];
        now apply inserts_within_same].
    rewrite B.
    pose proof (groups_within table group_fields uniques (dict_keys row0)
                  (map (fun k => (k, filter (has_key group_fields k)
                                            (row0 :: rows)))
                       (set_update [] ks)) s1) as G.
    rewrite length_map in G.
    apply inserts_within_same in U.
    pose proof (inserts_within_add 0 _ s s1 _ U G) as UG.
    destruct (for_each _ _ s1) as [[[]|e] s2]; exact UG.
Qed.

Lemma load_inserts_once_per_key_witness :
  inserts_within
    (List.length (set_update [] [ [VStr "A"; VStr "B"; VStr "C"];
                                  [VStr "A"; VStr "B"; VStr "C"] ]))
    Examples.empty_store
    (snd (insert_groups_with_conflict_report
            "time_of_op" Examples.demo_batch Examples.demo_fields
            Examples.empty_store)).
Proof.
  apply (load_inserts_once_per_key
           "time_of_op" Examples.demo_batch Examples.demo_fields
           [ [VStr "A"; VStr "B"; VStr "C"]; [VStr "A"; VStr "B"; VStr "C"] ]
           Examples.empty_store).
  reflexivity.
Defined.
End LoadFrame.

(** ** Tables outside the restrictive class *)

Section PlainTables.
Import Dedup.

Lemma candidate_keys_plain (table : string) (fields : list string)
      (gkey : key) (first_row : pyrow) :
  Str.contains "restrictive" table = false ->
  candidate_keys table fields gkey first_row
  = Ok {| gkeys := [gkey]; id_field_str := None; name_field := None;
          _name := VNone |}.
Proof.
  intros H. unfold candidate_keys.
  destruct (filter (fun c => Str.endswith c "_id") fields); [reflexivity|].
  now rewrite H.
Qed.

Lemma build_select_one_placeholders (table : string) (fields : list string)
      (gkey : key) (q : select) (params : list value) :
  build_select_one table fields gkey = Ok (q, params) ->
  List.length params = placeholders q.
Proof.
  unfold build_select_one. destruct (negb _); [discriminate|].
  pose proof (select_parts_lengths (combine fields gkey)) as Hl.
  destruct (select_parts (combine fields gkey)) as [ws ps].
  intros H. injection H as <- <-. unfold placeholders. simpl in *. lia.
Qed.

Lemma execute_select_ok (q : select) (params : list value) (s : store) :
  sel_where q <> [] ->
  List.length params = placeholders q ->
  execute_select q params s
  = (Ok (filter (select_holds q params) (st_rows s)),
     log_event (EvSelect (sel_text q) params) s).
Proof.
  intros Hw Hl. unfold execute_select.
  destruct (sel_where q); [congruence|]. now rewrite Hl, Nat.eqb_refl.
Qed.

(** The pre-check of a group in a table outside the restrictive class is
    the one probe of its key. *)
Lemma process_group_plain (table : string) (fields : list string)
      (unique_indexes : list (list string)) (cols : list string)
      (gkey : key) (grp_rows : list pyrow) (q : select)
      (params : list value) (s : store) :
  Str.contains "restrictive" table = false ->
  build_select_one table fields gkey = Ok (q, params) ->
  sel_where q <> [] ->
  process_group table fields unique_indexes cols (gkey, grp_rows) s
  = match filter (select_holds q params) (st_rows s) with
    | _ :: _ => (Ok tt, log_event (EvSelect (sel_text q) params) s)
    | [] =>
        (rows_inserted <-
           with_connection
             (executemany_insert true (insert_sql table cols) cols grp_rows) ;;
         if Nat.eqb rows_inserted (List.length grp_rows) then ret tt
         else diagnose table fields unique_indexes gkey grp_rows)
          (log_event (EvSelect (sel_text q) params) s)
    end.
Proof.
  intros Hplain Hb Hw.
  unfold process_group, bind, lift.
  rewrite (candidate_keys_plain table fields gkey _ Hplain).
  cbn [gkeys probe_loop]. unfold bind, probe_candidate, bind, lift.
  rewrite Hb. cbn [fst snd].
  rewrite (execute_select_ok q params s Hw
             (build_select_one_placeholders table fields gkey q params Hb)).
  destruct (filter (select_holds q params) (st_rows s)); reflexivity.
Qed.

Lemma log_extends_refl (s : store) : log_extends s s.
Proof. exists []. now rewrite app_nil_r. Qed.

Lemma log_extends_trans (s1 s2 s3 : store) :
  log_extends s1 s2 -> log_extends s2 s3 -> log_extends s1 s3.
Proof.
  intros [m1 H1] [m2 H2]. exists (m1 ++ m2). now rewrite H2, H1, app_assoc.
Qed.

Lemma execute_select_log (q : select) (params : list value) :
  keeps log_extends (execute_select q params).
Proof.
  intros s. unfold execute_select.
  destruct (sel_where q); [|destruct (Nat.eqb _ _)]; simpl;
    now exists [EvSelect (sel_text q) params].
Qed.

Lemma diagnose_log (table : string) (group_fields : list string)
      (unique_indexes : list (list string)) (gkey : key)
      (grp_rows : list pyrow) :
  keeps log_extends (diagnose table group_fields unique_indexes gkey grp_rows).
Proof.
  unfold diagnose.
  apply keeps_bind; [exact log_extends_trans | apply execute_select_log|].
  intros _.
  apply keeps_for_each; [exact log_extends_refl | exact log_extends_trans|].
  intros uniq_cols _.
  apply keeps_bind; [exact log_extends_trans | |intros attempted].
  { apply keeps_lift. exact log_extends_refl. }
  apply keeps_for_each; [exact log_extends_refl | exact log_extends_trans|].
  intros uk _.
  apply keeps_bind; [exact log_extends_trans | apply execute_select_log|].
  intros _. apply keeps_ret. exact log_extends_refl.
Qed.

(** X10. In a table outside the restrictive class a group whose probe is well
    formed is decided by that one probe.  When a stored row satisfies it,
    the group is skipped and the SELECT is all that was issued; when none
    does, the next statement is the one INSERT OR IGNORE of all the rows
    of the group. *)
Theorem plain_group_decision
        (table : string) (fields : list string)
        (unique_indexes : list (list string)) (cols : list string)
        (gkey : key) (grp_rows : list pyrow) (q : select)
        (params : list value) (s : store) :
  Str.contains "restrictive" table = false ->
  build_select_one table fields gkey = Ok (q, params) ->
  sel_where q <> [] ->
  (filter (select_holds q params) (st_rows s) <> [] ->
   process_group table fields unique_indexes cols (gkey, grp_rows) s
   = (Ok tt, log_event (EvSelect (sel_text q) params) s))
  /\ (filter (select_holds q params) (st_rows s) = [] ->
      exists more,
        st_log (snd (process_group table fields unique_indexes cols
                                   (gkey, grp_rows) s))
        = st_log s
          ++ EvSelect (sel_text q) params
             :: EvInsert (insert_sql table cols) grp_rows :: more).
Proof.
  intros Hplain Hb Hw.
  rewrite (process_group_plain table fields unique_indexes cols gkey grp_rows
                               q params s Hplain Hb Hw).
  split; intros Hf.
  - destruct (filter (select_holds q params) (st_rows s)); [congruence|].
    reflexivity.
  - rewrite Hf. unfold bind, with_connection, executemany_insert.
    cbn [st_rows st_uniques log_event].
    destruct (insert_rows true cols grp_rows (map snd (st_uniques s))
                          (st_rows s) 0) as [[n|e] db].
    + destruct (Nat.eqb n (List.length grp_rows)).
      * exists []. simpl. now rewrite <- app_assoc.
      * match goal with
        | |- context [diagnose ?t ?f ?u ?g ?r ?st] =>
            destruct (diagnose_log t f u g r st) as [more Hmore]
        end.
        exists more. rewrite Hmore. simpl. now rewrite <- !app_assoc.
    + exists []. simpl. now rewrite <- app_assoc.
Qed.

Lemma plain_group_decision_witness :
  process_group "time_of_op" Examples.demo_fields [] ["x"; "y"; "z"]
                ([VStr "A"; VStr "B"; VStr "C"], Examples.atomic_batch)
                Examples.atomic_store
  = (Ok tt,
     log_event
       (EvSelect
          "SELECT * FROM time_of_op WHERE x = ? AND y = ? AND z = ? LIMIT 1"
          [VStr "A"; VStr "B"; VStr "C"])
       Examples.atomic_store)
  /\ exists more,
      st_log (snd (process_group
                     "time_of_op" Examples.demo_fields [] ["x"; "y"; "z"]
                     ([VStr "A"; VStr "B"; VStr "C"], Examples.atomic_batch)
                     Examples.empty_store))
      = st_log Examples.empty_store
        ++ EvSelect
             "SELECT * FROM time_of_op WHERE x = ? AND y = ? AND z = ? LIMIT 1"
             [VStr "A"; VStr "B"; VStr "C"]
           :: EvInsert (insert_sql "time_of_op" ["x"; "y"; "z"])
                       Examples.atomic_batch :: more.
Proof.
  split.
  - apply (proj1 (plain_group_decision
                    "time_of_op" Examples.demo_fields [] ["x"; "y"; "z"]
                    [VStr "A"; VStr "B"; VStr "C"] Examples.atomic_batch
                    _ _ Examples.atomic_store
                    eq_refl eq_refl ltac:(discriminate))).
    discriminate.
  - apply (proj2 (plain_group_decision
                    "time_of_op" Examples.demo_fields [] ["x"; "y"; "z"]
                    [VStr "A"; VStr "B"; VStr "C"] Examples.atomic_batch
                    _ _ Examples.empty_store
                    eq_refl eq_refl ltac:(discriminate))).
    reflexivity.
Defined.

(** *** Loading a batch twice *)

Lemma same_table_rows (s s' : store) : same_table s s' -> same_rows s s'.
Proof. intros (H1 & H2 & _). now split. Qed.

Lemma violates_app (uniques : list (list string)) (db ext : list pyrow)
      (x : pyrow) :
  violates uniques db x = true -> violates uniques (db ++ ext) x = true.
Proof.
  unfold violates. rewrite !existsb_exists.
  intros (cols & Hc & H). exists cols. split; [assumption|].
  rewrite existsb_app, H. reflexivity.
Qed.

(** Rows that were all passed over are passed over again on a larger
    table. *)
Lemma insert_rows_none_again (cols : list string)
      (uniques : list (list string)) (rows : list pyrow) :
  forall (db : list pyrow) (c n : nat),
    insert_rows true cols rows uniques db c = (Ok n, db) ->
    forall (ext : list pyrow) (c' : nat),
      insert_rows true cols rows uniques (db ++ ext) c' = (Ok c', db ++ ext).
Proof.
  induction rows as [|r rows IH]; simpl; intros db c n H ext c';
    [reflexivity|].
  destruct (bind_named cols r) as [x|e]; [|discriminate].
  destruct (violates uniques db x) eqn:V.
  - rewrite (violates_app uniques db ext x V). now apply (IH db c n).
  - exfalso.
    destruct (insert_rows_adds true cols uniques rows (db ++ [x]) (S c))
      as (added & Hadd & _).
    rewrite H in Hadd. simpl in Hadd.
    apply (f_equal (@List.length pyrow)) in Hadd.
    rewrite !length_app in Hadd. simpl in Hadd. lia.
Qed.

Lemma plain_group_replay (table : string) (fields : list string)
      (unique_indexes : list (list string)) (cols : list string)
      (gk : key) (rs : list pyrow) (s1 s2 t : store) :
  Str.contains "restrictive" table = false ->
  (forall f, In f fields -> In f cols) ->
  (forall r, In r rs -> group_key fields r = Ok gk) ->
  process_group table fields unique_indexes cols (gk, rs) s1 = (Ok tt, s2) ->
  st_uniques t = st_uniques s1 ->
  (exists ext, st_rows t = st_rows s2 ++ ext) ->
  same_rows t (snd (process_group table fields unique_indexes cols (gk, rs) t)).
Proof.
  intros Hplain Hsub Hrs H1 Hu [ext Hext].
  destruct (build_select_one table fields gk) as [[q params]|e] eqn:B.
  2:{ exfalso. revert H1. unfold process_group, bind, lift.
      rewrite (candidate_keys_plain table fields gk _ Hplain).
      cbn [gkeys probe_loop]. unfold bind, probe_candidate, bind, lift.
      rewrite B. discriminate. }
  destruct (sel_where q) as [|w ws] eqn:W.
  { exfalso. revert H1. unfold process_group, bind, lift.
    rewrite (candidate_keys_plain table fields gk _ Hplain).
    cbn [gkeys probe_loop]. unfold bind, probe_candidate, bind, lift.
    rewrite B. cbn [fst snd]. unfold execute_select. rewrite W. discriminate. }
  assert (Hw : sel_where q <> []) by (rewrite W; discriminate).
  rewrite (process_group_plain table fields unique_indexes cols gk rs
                               q params s1 Hplain B Hw) in H1.
  rewrite (process_group_plain table fields unique_indexes cols gk rs
                               q params t Hplain B Hw).
  destruct (filter (select_holds q params) (st_rows s1)) as [|x1 l1] eqn:F1.
  - (* the first call inserted *)
    revert H1. unfold bind at 1, with_connection at 1, executemany_insert at 1.
    cbn [st_rows st_uniques log_event].
    destruct (insert_rows true cols rs (map snd (st_uniques s1)) (st_rows s1) 0)
      as [[n|e] db] eqn:I; [|discriminate].
    intros H1.
    assert (Hdb : st_rows s2 = db).
    { destruct (Nat.eqb n (List.length rs)).
      - unfold ret in H1. injection H1 as <-. reflexivity.
      - match type of H1 with
        | diagnose ?a ?b ?c ?d ?e ?st = _ =>
            pose proof (diagnose_keeps a b c d e st) as D
        end.
        rewrite H1 in D. destruct D as (D & _). exact D. }
    destruct (insert_rows_adds true cols (map snd (st_uniques s1)) rs
                               (st_rows s1) 0) as (landed & Hadd & HP).
    rewrite I in Hadd. simpl in Hadd.
    destruct (filter (select_holds q params) (st_rows t)) as [|x2 l2] eqn:F2;
      [|apply same_table_rows, log_event_same_table; reflexivity].
    assert (Hlanded : landed = []).
    { destruct landed as [|y landed]; [reflexivity|]. exfalso.
      apply Forall_inv in HP. destruct HP as (r & Hr & Hb).
      pose proof (bind_named_stored_key cols fields r y gk Hsub Hb (Hrs r Hr))
        as Hkey.
      rewrite <- Hkey in B.
      destruct (build_select_one_matches table fields y q params B) as [Hh _].
      assert (Hin : In y (filter (select_holds q params) (st_rows t))).
      { apply filter_In. split; [|assumption].
        rewrite Hext, Hdb, Hadd. rewrite !in_app_iff. left. right. now left. }
      rewrite F2 in Hin. exact Hin. }
    subst landed. rewrite app_nil_r in Hadd. rewrite Hadd in I.
    unfold bind, with_connection, executemany_insert.
    cbn [st_rows st_uniques log_event].
    rewrite Hu, Hext, Hdb, Hadd.
    rewrite (insert_rows_none_again cols (map snd (st_uniques s1)) rs
                                    (st_rows s1) 0 n I ext 0).
    destruct (Nat.eqb 0 (List.length rs)).
    + split; simpl; congruence.
    + match goal with
      | |- same_rows _ (snd (diagnose ?a ?b ?c ?d ?e ?st)) =>
          pose proof (diagnose_keeps a b c d e st) as D
      end.
      destruct D as (D1 & D2 & _). split.
      * rewrite D1. simpl. congruence.
      * rewrite D2. simpl. congruence.
  - (* the first call found the group *)
    injection H1 as <-. simpl in Hext.
    rewrite Hext, filter_app, F1. simpl.
    apply same_table_rows, log_event_same_table. reflexivity.
Qed.

Lemma for_each_cons_ok {A} (body : A -> M unit) (x : A) (xs : list A)
      (s sF : store) :
  for_each body (x :: xs) s = (Ok tt, sF) ->
  exists s1, body x s = (Ok tt, s1) /\ for_each body xs s1 = (Ok tt, sF).
Proof.
  simpl. unfold bind.
  destruct (body x s) as [[[]|e] s1]; [|discriminate].
  intros H. now exists s1.
Qed.

Lemma groups_loop_extends (table : string) (fields : list string)
      (unique_indexes : list (list string)) (cols : list string)
      (groups : list (key * list pyrow)) :
  keeps (extends_by (fun _ => True))
        (for_each (process_group table fields unique_indexes cols) groups).
Proof.
  apply keeps_for_each; [table_rel | table_rel |].
  intros [gk rs] _ s.
  apply extends_by_weaken
    with (P := fun y => exists r, In r rs /\ bind_named cols r = Ok y);
    [easy | apply process_group_adds].
Qed.

Lemma groups_replay (table : string) (fields : list string)
      (unique_indexes : list (list string)) (cols : list string)
      (groups : list (key * list pyrow)) :
  Str.contains "restrictive" table = false ->
  (forall f, In f fields -> In f cols) ->
  well_bucketed fields groups ->
  forall s1 sF t,
    for_each (process_group table fields unique_indexes cols) groups s1
    = (Ok tt, sF) ->
    st_uniques t = st_uniques s1 ->
    (exists ext, st_rows t = st_rows sF ++ ext) ->
    same_rows t
      (snd (for_each (process_group table fields unique_indexes cols)
                     groups t)).
Proof.
  intros Hplain Hsub.
  induction groups as [|[gk rs] groups IH]; intros Hw s1 sF t H Hu Hext.
  - now split.
  - destruct (for_each_cons_ok _ _ _ _ _ H) as (s2 & Hg & Hrest).
    destruct (groups_loop_extends table fields unique_indexes cols groups s2)
      as (Hu2 & more & Hmore & _).
    rewrite Hrest in Hu2, Hmore. simpl in Hu2, Hmore.
    pose proof (process_group_adds table fields unique_indexes cols gk rs s1)
      as (Hu1 & _).
    rewrite Hg in Hu1. simpl in Hu1.
    assert (Hstep : same_rows t
                      (snd (process_group table fields unique_indexes cols
                                          (gk, rs) t))).
    { apply (plain_group_replay table fields unique_indexes cols gk rs
                                s1 s2 t Hplain Hsub); try assumption.
      - intros r Hr. apply (Hw gk rs r); [now left | assumption].
      - destruct Hext as [ext Hext]. exists (more ++ ext).
        now rewrite Hext, Hmore, app_assoc. }
    rewrite for_each_cons_snd.
    destruct (process_group table fields unique_indexes cols (gk, rs) t)
      as [[[]|e] t1]; [|exact Hstep].
    simpl in Hstep. destruct Hstep as [Hr1 Hu1'].
    destruct (IH (fun gk' rs' r' Hin' => Hw gk' rs' r' (or_intror Hin'))
                 s2 sF t1 Hrest) as [Hr2 Hu2'].
    + congruence.
    + destruct Hext as [ext Hext]. exists ext. congruence.
    + split; congruence.
Qed.

(** X11. In a table outside the restrictive class, loading a batch again
    after a call that returned leaves the rows and the indexes as the
    first call left them. *)
Theorem plain_load_twice
        (table : string) (rows : list pyrow) (group_fields : list string)
        (s sF : store) (b : bool) :
  Str.contains "restrictive" table = false ->
  insert_groups_with_conflict_report table rows group_fields s = (Ok b, sF) ->
  same_rows sF (snd (insert_groups_with_conflict_report
                       table rows group_fields sF)).
Proof.
  intros Hplain. unfold insert_groups_with_conflict_report.
  destruct rows as [|row0 rows]; [now split|].
  unfold bind, lift.
  pose proof (_unique_indexes_keeps table s) as U.
  pose proof (_unique_indexes_keeps table sF) as UF.
  assert (EU : forall st, fst (_unique_indexes table st)
                          = Ok (map snd (st_uniques st))) by reflexivity.
  pose proof (EU s) as E1. pose proof (EU sF) as E2.
  destruct (_unique_indexes table s) as [[u1|e1] s1]; simpl in E1, U;
    [|discriminate].
  destruct (_unique_indexes table sF) as [[u2|e2] t]; simpl in E2, UF;
    [|discriminate].
  injection E1 as ->. injection E2 as ->.
  destruct (bucket group_fields (row0 :: rows) []) as [groups|e] eqn:B;
    [|discriminate].
  destruct (bucket_well group_fields (row0 :: rows) [] groups) as [Hw Hall];
    [easy | assumption |].
  destruct (Hall row0 (or_introl eq_refl)) as [k0 Hk0].
  intros H.
  assert (Hloop : for_each (process_group table group_fields
                                          (map snd (st_uniques s))
                                          (dict_keys row0)) groups s1
                  = (Ok tt, sF)).
  { destruct (for_each _ groups s1) as [[[]|e] s2]; [|discriminate].
    unfold ret in H. now injection H as _ <-. }
  assert (HuF : st_uniques sF = st_uniques s).
  { destruct (groups_loop_extends table group_fields
                (map snd (st_uniques s)) (dict_keys row0) groups s1)
      as (Hu & _).
    rewrite Hloop in Hu. simpl in Hu. destruct U as (_ & U2 & _). congruence. }
  rewrite HuF.
  destruct UF as (UF1 & UF2 & _).
  pose proof (groups_replay table group_fields (map snd (st_uniques s))
                (dict_keys row0) groups Hplain
                (group_key_fields group_fields row0 k0 Hk0) Hw s1 sF t Hloop)
    as R.
  destruct R as [R1 R2].
  - destruct U as (_ & U2 & _). congruence.
  - exists []. now rewrite app_nil_r.
  - destruct (for_each _ groups t) as [[[]|e] t2]; simpl in *;
      split; congruence.
Qed.

Lemma plain_load_twice_witness :
  same_rows Examples.demo_loaded
    (snd (insert_groups_with_conflict_report
            "time_of_op" Examples.demo_batch Examples.demo_fields
            Examples.demo_loaded)).
Proof.
  apply (plain_load_twice "time_of_op" Examples.demo_batch
                          Examples.demo_fields Examples.empty_store
                          Examples.demo_loaded true).
  - reflexivity.
  - reflexivity.
Defined.
End PlainTables.

(** ** The candidate keys in general *)

Section CandidateKeys.
Import Dedup.

Lemma expand_suffix_with_id (gdict : list (string * value)) (gkey : key)
      (id_field _id cur : string) (more : list key) :
  expand_suffix gdict gkey id_field _id cur = Ok more ->
  Forall (fun k => exists v, k = with_id gdict id_field v) more.
Proof.
  unfold expand_suffix.
  destruct (Str.last _id) as [l|]; [|discriminate].
  repeat match goal with
         | |- context [if ?b then _ else _] => destruct b
         | |- context [match nth_error ?l ?n with _ => _ end] =>
             destruct (nth_error l n)
         end;
    intros H; try discriminate; injection H as <-;
    repeat constructor; eexists; reflexivity.
Qed.

Lemma expand_level_with_id (gdict : list (string * value))
      (id_field _id : string) :
  Forall (fun k => exists v, k = with_id gdict id_field v)
         (expand_level gdict id_field _id).
Proof.
  unfold expand_level.
  repeat match goal with
         | |- context [if ?b then _ else _] => destruct b
         end;
    simpl; repeat constructor; eexists; reflexivity.
Qed.

Lemma expand_id_with_id (gdict : list (string * value)) (gkey : key)
      (id_field _id : string) (more : list key) :
  expand_id gdict gkey id_field _id = Ok more ->
  Forall (fun k => exists v, k = with_id gdict id_field v) more.
Proof.
  unfold expand_id. destruct _id as [|c0 rest]; [discriminate|].
  destruct (char_is c0 "K" || char_is c0 "S").
  - match goal with
    | |- context [expand_suffix ?a ?b ?c ?d ?e] =>
        destruct (expand_suffix a b c d e) as [suffix_keys|e'] eqn:S
    end; [|discriminate].
    apply expand_suffix_with_id in S. simpl.
    intros H. injection H as <-.
    constructor; [eexists; reflexivity|].
    apply Forall_app. split.
    + destruct rest as [|c1 rest2]; [constructor|].
      match goal with
      | |- context [if ?b then _ else _] => destruct b
      end; repeat constructor. eexists; reflexivity.
    + apply Forall_app. split; [assumption | apply expand_level_with_id].
  - repeat match goal with
           | |- context [if ?b then _ else _] => destruct b
           end;
      intros H; injection H as <-; repeat constructor; eexists; reflexivity.
Qed.

(** X12. The candidate keys of a group over distinct fields start with the
    literal key, and every further candidate is that key with nothing but
    the value of the first [_id] field replaced, by a string. *)
Theorem candidate_keys_replace_id
        (table : string) (fields : list string) (gkey : key)
        (first_row : pyrow) (c : candidates) :
  NoDup fields ->
  candidate_keys table fields gkey first_row = Ok c ->
  exists more,
    gkeys c = gkey :: more
    /\ (more = []
        \/ exists id_field,
            hd_error (filter (fun f => Str.endswith f "_id") fields)
            = Some id_field
            /\ Forall (fun k => exists v,
                           k = replace_id fields gkey id_field (VStr v))
                      more).
Proof.
  intros Hnd. unfold candidate_keys.
  destruct (filter (fun f => Str.endswith f "_id") fields) as [|id0 ids];
    [intros H; injection H as <-; exists []; split; [reflexivity | now left]|].
  rewrite (dict_of_zip_nodup fields gkey Hnd).
  destruct (dict_get String.eqb (combine fields gkey) id0) as [old|] eqn:G;
    [|cbn [truthy]; rewrite andb_false_r;
      intros H; injection H as <-; exists []; split;
      [reflexivity | now left]].
  destruct (Str.contains "restrictive" table && truthy old);
    [|intros H; injection H as <-; exists []; split; [reflexivity | now left]].
  destruct old as [|sid|z]; try discriminate.
  destruct (expand_id (combine fields gkey) gkey id0 sid) as [more|e] eqn:E;
    [|discriminate].
  simpl. intros H. injection H as <-. exists more. split; [reflexivity|].
  right. exists id0. split; [reflexivity|].
  apply expand_id_with_id in E. revert E. apply Forall_impl.
  intros k [v ->]. exists v.
  rewrite <- (dict_of_zip_nodup fields gkey Hnd).
  now apply with_id_replace with (old := VStr sid).
Qed.

Lemma candidate_keys_replace_id_witness :
  exists more,
    [ Examples.reno_key; [VStr "USA"; VStr "SRENON"; VStr "A"];
      [VStr "USA"; VStr "RENON"; VStr "A"];
      [VStr "USA"; VStr "RENO NORTH"; VStr "A"] ]
    = Examples.reno_key :: more
    /\ (more = []
        \/ exists id_field,
            hd_error (filter (fun f => Str.endswith f "_id")
                             Examples.reno_fields)
            = Some id_field
            /\ Forall (fun k => exists v,
                           k = replace_id Examples.reno_fields
                                          Examples.reno_key id_field (VStr v))
                      more).
Proof.
  apply (candidate_keys_replace_id
           "restrictive_airspace" Examples.reno_fields Examples.reno_key
           Examples.reno_incoming
           {| gkeys := [ Examples.reno_key;
                         [VStr "USA"; VStr "SRENON"; VStr "A"];
                         [VStr "USA"; VStr "RENON"; VStr "A"];
                         [VStr "USA"; VStr "RENO NORTH"; VStr "A"] ];
              id_field_str := Some "restrictive_id";
              name_field := Some "restrictive_name";
              _name := VStr "RENO MOA, NV" |}).
  - repeat constructor; simpl; intuition discriminate.
  - reflexivity.
Defined.
End CandidateKeys.

Section Unprefixed.
Import Dedup.

(** X13. An identifier that starts with neither [K] nor [S] and holds neither
    [HIH] nor [LOW] is not expanded: the literal key is the one candidate,
    and with it the name fallback stays off. *)
Theorem candidate_keys_unprefixed
        (table : string) (fields : list string) (gkey : key)
        (first_row : pyrow) (id_field : string) (c0 : ascii) (rest : string) :
  hd_error (filter (fun f => Str.endswith f "_id") fields) = Some id_field ->
  dict_get String.eqb (dict_of_zip String.eqb fields gkey) id_field
  = Some (VStr (String c0 rest)) ->
  char_is c0 "K" = false ->
  char_is c0 "S" = false ->
  Str.contains "HIH" (String c0 rest) = false ->
  Str.contains "LOW" (String c0 rest) = false ->
  exists c,
    candidate_keys table fields gkey first_row = Ok c
    /\ gkeys c = [gkey]
    /\ fallback_on c = false.
Proof.
  intros Hid Hget HK HS HH HL. unfold candidate_keys.
  destruct (filter (fun f => Str.endswith f "_id") fields) as [|id0 ids];
    [discriminate|].
  simpl in Hid. injection Hid as ->. rewrite Hget.
  destruct (Str.contains "restrictive" table && truthy (VStr (String c0 rest)));
    [|eexists; repeat split; reflexivity].
  unfold expand_id. rewrite HK, HS, HH, HL. simpl.
  eexists. repeat split; reflexivity.
Qed.

Lemma candidate_keys_unprefixed_witness :
  exists c,
    candidate_keys "restrictive_airspace" Examples.reno_fields
                   [VStr "USA"; VStr "RENO NORTH"; VStr "A"]
                   Examples.reno_north_row = Ok c
    /\ gkeys c = [[VStr "USA"; VStr "RENO NORTH"; VStr "A"]]
    /\ fallback_on c = false.
Proof.
  apply (candidate_keys_unprefixed
           "restrictive_airspace" Examples.reno_fields
           [VStr "USA"; VStr "RENO NORTH"; VStr "A"] Examples.reno_north_row
           "restrictive_id" "R"%char "ENO NORTH");
    reflexivity.
Defined.
End Unprefixed.

(** ** Statement derivation: the field list *)

Section GetFields.
Import TableBase.
Variable translate_sql_types : string -> string.

Lemma remove_first_filter (fields : list string) :
  NoDup fields ->
  remove_first "table_name" fields
  = filter (fun f => negb (String.eqb f "table_name")) fields.
Proof.
  induction fields as [|f fields IH]; cbn [remove_first filter];
    intros Hnd; [reflexivity|].
  inversion Hnd as [|? ? Hf Hnd']; subst.
  destruct (String.eqb_spec f "table_name") as [->|Hne]; cbn [negb].
  - symmetry. apply forallb_filter_id. apply forallb_forall.
    intros x Hx. apply negb_true_iff, String.eqb_neq. congruence.
  - now rewrite IH.
Qed.

Lemma filter_no_table_name (fields : list string) :
  existsb (String.eqb "table_name") fields = false ->
  filter (fun f => negb (String.eqb f "table_name")) fields = fields.
Proof.
  induction fields as [|f fields IH]; cbn [existsb filter]; intros E;
    [reflexivity|].
  apply orb_false_iff in E as [Ef E]. rewrite String.eqb_sym in Ef.
  rewrite Ef. cbn [negb]. f_equal. now apply IH.
Qed.

(** X14. Over distinct fields [get_fields()] is the field list without
    [table_name], in its order; with duplicates only the first
    [table_name] goes. *)
Theorem get_fields_without_table_name (r : shape) :
  (NoDup (ordered_fields r) ->
   get_fields translate_sql_types r false
   = filter (fun f => negb (String.eqb f "table_name")) (ordered_fields r))
  /\ (forall pre post,
         ordered_fields r = pre ++ "table_name" :: post ->
         ~ In "table_name" pre ->
         get_fields translate_sql_types r false = pre ++ post).
Proof.
  unfold get_fields. cbn [negb]. split.
  - intros Hnd.
    destruct (existsb (String.eqb "table_name") (ordered_fields r)) eqn:E.
    + now apply remove_first_filter.
    + symmetry. now apply filter_no_table_name.
  - intros pre post -> Hnot.
    assert (E : existsb (String.eqb "table_name") (pre ++ "table_name" :: post)
                = true).
    { rewrite existsb_app. cbn [existsb]. rewrite String.eqb_refl.
      now rewrite orb_true_r. }
    rewrite E. clear E.
    induction pre as [|f pre IH]; cbn [app remove_first].
    + now rewrite String.eqb_refl.
    + destruct (String.eqb_spec f "table_name") as [->|_].
      * exfalso. apply Hnot. now left.
      * f_equal. apply IH. intros H. apply Hnot. now right.
Qed.
End GetFields.

Lemma get_fields_without_table_name_witness :
  TableBase.get_fields (fun t => t)
    {| TableBase.table_name := "t";
       TableBase.ordered_fields := ["table_name"; "st"; "area"];
       TableBase.hints := [];
       TableBase.ordered_leading := None |} false
  = filter (fun f => negb (String.eqb f "table_name"))
           ["table_name"; "st"; "area"]
  /\ TableBase.get_fields (fun t => t)
       {| TableBase.table_name := "t";
          TableBase.ordered_fields := ["st"; "table_name"; "table_name"];
          TableBase.hints := [];
          TableBase.ordered_leading := None |} false
     = ["st"] ++ ["table_name"].
Proof.
  split.
  - apply (proj1 (get_fields_without_table_name
                    (fun t => t)
                    {| TableBase.table_name := "t";
                       TableBase.ordered_fields := ["table_name"; "st"; "area"];
                       TableBase.hints := [];
                       TableBase.ordered_leading := None |})).
    repeat constructor; simpl; intuition discriminate.
  - apply (proj2 (get_fields_without_table_name
                    (fun t => t)
                    {| TableBase.table_name := "t";
                       TableBase.ordered_fields :=
                         ["st"; "table_name"; "table_name"];
                       TableBase.hints := [];
                       TableBase.ordered_leading := None |})
                 ["st"] ["table_name"]).
    + reflexivity.
    + simpl. intuition discriminate.
Defined.

(** ** The lines of an airport *)

Section AirportLines.
Import Airports.
Variables line Primary Continuation Planning PlanningContinuation : Type.
Variable cont_rec_no_in_0_1 : line -> bool.
Variable application_is_standard : line -> bool.
Variable application_is_planning : line -> bool.
Variable primary_from_line : line -> Primary.
Variable continuation_from_line : line -> Continuation.
Variable planning_from_line : line -> Planning.
Variable planning_continuation_from_line : line -> PlanningContinuation.

Let scan_line' :=
  scan_line cont_rec_no_in_0_1 application_is_standard
            application_is_planning primary_from_line continuation_from_line
            planning_from_line planning_continuation_from_line.

Let init' :=
  init cont_rec_no_in_0_1 application_is_standard application_is_planning
       primary_from_line continuation_from_line planning_from_line
       planning_continuation_from_line.

Let start : scan Primary Continuation Planning PlanningContinuation :=
  {| self := {| primary := None; continuation := []; planning := [];
                planning_continuation := [] |};
     was_last_planning := false |}.

Let is_continuation_line (l : line) : bool :=
  negb (cont_rec_no_in_0_1 l) && application_is_standard l.

Let is_planning_line (l : line) : bool :=
  negb (cont_rec_no_in_0_1 l) && negb (application_is_standard l)
  && application_is_planning l.

Lemma scan_parts (lines : list line) :
  let sc := fold_left scan_line' lines start in
  continuation (self sc)
  = map continuation_from_line (filter is_continuation_line lines)
  /\ planning (self sc)
     = map planning_from_line (filter is_planning_line lines)
  /\ primary (self sc)
     = hd_error (rev (map primary_from_line
                          (filter cont_rec_no_in_0_1 lines)))
  /\ List.length (planning_continuation (self sc))
     + (if was_last_planning sc then 1 else 0)
     <= List.length (planning (self sc))
  /\ List.length (filter cont_rec_no_in_0_1 lines)
     + List.length (continuation (self sc))
     + List.length (planning (self sc))
     + List.length (planning_continuation (self sc))
     <= List.length lines.
Proof.
  induction lines as [|l lines IH] using rev_ind.
  - simpl. repeat split; lia.
  - rewrite fold_left_app. cbn [fold_left].
    set (sc := fold_left scan_line' lines start) in *.
    cbv zeta in IH. destruct IH as (Hc & Hp & Hpr & Hpc & Hn).
    rewrite !filter_app, !map_app, rev_app_distr, !length_app.
    unfold scan_line', scan_line, is_continuation_line, is_planning_line.
    cbn [filter].
    destruct (cont_rec_no_in_0_1 l); cbn [negb andb self was_last_planning
                                          primary continuation planning
                                          planning_continuation map rev app
                                          hd_error List.length].
    + rewrite !app_nil_r. repeat split; try assumption; lia.
    + destruct (application_is_standard l);
        cbn [negb andb self was_last_planning primary continuation planning
             planning_continuation map rev app hd_error List.length].
      * rewrite !app_nil_r, Hc. repeat split; try assumption;
          rewrite ?length_app; cbn [List.length]; try lia.
        rewrite <- Hc. lia.
      * destruct (application_is_planning l);
          cbn [negb andb self was_last_planning primary continuation planning
               planning_continuation map rev app hd_error List.length].
        -- rewrite !app_nil_r, Hp. repeat split; try assumption;
             rewrite ?length_app; cbn [List.length];
             destruct (was_last_planning sc); rewrite <- ?Hp; lia.
        -- rewrite !app_nil_r.
           destruct (was_last_planning sc) eqn:W;
             cbn [self was_last_planning primary continuation planning
                  planning_continuation];
             repeat split; try assumption;
             rewrite ?length_app; cbn [List.length]; rewrite ?W; lia.
Qed.

(** X15. [Airport.__init__] keeps the continuation lines and the planning
    lines of the partition in their order, whatever lies between them,
    and as primary the last line whose continuation number is 0 or 1. *)
Theorem airport_init_parts (airport_partition : list line) :
  continuation (init' airport_partition)
  = map continuation_from_line
        (filter (fun l => negb (cont_rec_no_in_0_1 l)
                          && application_is_standard l) airport_partition)
  /\ planning (init' airport_partition)
     = map planning_from_line
           (filter (fun l => negb (cont_rec_no_in_0_1 l)
                             && negb (application_is_standard l)
                             && application_is_planning l) airport_partition)
  /\ primary (init' airport_partition)
     = hd_error (rev (map primary_from_line
                          (filter cont_rec_no_in_0_1 airport_partition))).
Proof.
  destruct (scan_parts airport_partition) as (Hc & Hp & Hpr & _).
  repeat split; assumption.
Qed.

(** X16. [Airport.__init__] takes at most one planning continuation per
    planning line, and never more records than there are lines: a line
    that fits no case is left out. *)
Theorem airport_init_counts (airport_partition : list line) :
  List.length (planning_continuation (init' airport_partition))
  <= List.length (planning (init' airport_partition))
  /\ List.length (filter cont_rec_no_in_0_1 airport_partition)
     + List.length (continuation (init' airport_partition))
     + List.length (planning (init' airport_partition))
     + List.length (planning_continuation (init' airport_partition))
     <= List.length airport_partition.
Proof.
  destruct (scan_parts airport_partition) as (_ & _ & _ & Hpc & Hn).
  split; [|exact Hn].
  unfold init', init. fold start. fold scan_line'. lia.
Qed.

Variable D : Type.
Variable primary_to_dict : Primary -> D.
Variable continuation_to_dict : Continuation -> D.
Variable planning_to_dict : Planning -> D.
Variable planning_continuation_to_dict : PlanningContinuation -> D.

(** X20. [Airport(lines).to_dict()] raises [AttributeError] exactly when no
    line of the partition has a continuation number of 0 or 1; otherwise
    it returns. *)
Theorem airport_to_dict_needs_primary (airport_partition : list line) :
  (filter cont_rec_no_in_0_1 airport_partition = [] ->
   to_dict primary_to_dict continuation_to_dict planning_to_dict
           planning_continuation_to_dict (init' airport_partition)
   = Raise AttributeError)
  /\ (filter cont_rec_no_in_0_1 airport_partition <> [] ->
      exists d,
        to_dict primary_to_dict continuation_to_dict planning_to_dict
                planning_continuation_to_dict (init' airport_partition)
        = Ok d).
Proof.
  destruct (scan_parts airport_partition) as (_ & _ & Hpr & _).
  unfold to_dict, init', init. fold start. fold scan_line'.
  rewrite Hpr. split; intros H.
  - now rewrite H.
  - destruct (filter cont_rec_no_in_0_1 airport_partition) as [|l ls] eqn:F
      using rev_ind; [congruence|].
    rewrite map_app, rev_app_distr. simpl. eexists. reflexivity.
Qed.
End AirportLines.

Lemma airport_to_dict_needs_primary_witness :
  Airports.to_dict (fun p : nat => p) (fun c : nat => c) (fun p : nat => p)
                   (fun c : nat => c)
                   (Airports.init (fun l => Nat.eqb l 0) (fun l => Nat.eqb l 2)
                                  (fun l => Nat.eqb l 3) (fun l => l)
                                  (fun l => l) (fun l => l) (fun l => l)
                                  [2; 3; 4])
  = Raise AttributeError
  /\ exists d,
      Airports.to_dict (fun p : nat => p) (fun c : nat => c) (fun p : nat => p)
                       (fun c : nat => c)
                       (Airports.init (fun l => Nat.eqb l 0)
                                      (fun l => Nat.eqb l 2)
                                      (fun l => Nat.eqb l 3) (fun l => l)
                                      (fun l => l) (fun l => l) (fun l => l)
                                      [0; 2; 3; 4])
      = Ok d.
Proof.
  split.
  - apply (proj1 (airport_to_dict_needs_primary
                    nat nat nat nat nat
                    (fun l => Nat.eqb l 0) (fun l => Nat.eqb l 2)
                    (fun l => Nat.eqb l 3) (fun l => l) (fun l => l)
                    (fun l => l) (fun l => l) nat (fun p => p) (fun c => c)
                    (fun p => p) (fun c => c) [2; 3; 4])).
    reflexivity.
  - apply (proj2 (airport_to_dict_needs_primary
                    nat nat nat nat nat
                    (fun l => Nat.eqb l 0) (fun l => Nat.eqb l 2)
                    (fun l => Nat.eqb l 3) (fun l => l) (fun l => l)
                    (fun l => l) (fun l => l) nat (fun p => p) (fun c => c)
                    (fun p => p) (fun c => c) [0; 2; 3; 4])).
    discriminate.
Defined.

(** ** MORA base records *)

Section MoraRecords.
Import MoraBase.

(** X17. A MORA base record gives [to_dict] the keys of [ordered_fields()], in
    order, which are the columns of its insert statement; each such row
    has every leading field and binds on the columns of any other; and
    its leading fields hold no [seq_no], so that the group key is the
    whole primary key. *)
Theorem mora_base_rows (b b0 : base value) (table_name : string)
        (translate_sql_types : string -> string) :
  dict_keys (to_dict b) = ordered_fields
  /\ TableBase.get_fields translate_sql_types (shape_of table_name) false
     = ordered_fields
  /\ Dedup.fields_before_default ordered_leading = Ok ordered_leading
  /\ Dedup.group_key ordered_leading (to_dict b)
     = Ok [st b; sec_code b; sub_code b; start_lat b; start_lon b]
  /\ bind_named (dict_keys (to_dict b0)) (to_dict b) = Ok (to_dict b)
  /\ TableBase.to_create_statement translate_sql_types (shape_of table_name)
     = Ok ("CREATE TABLE IF NOT EXISTS " ++ table_name ++ " ("
           ++ String.concat ", "
                [ "st " ++ translate_sql_types "str";
                  "sec_code " ++ translate_sql_types "str";
                  "sub_code " ++ translate_sql_types "str";
                  "start_lat " ++ translate_sql_types "float";
                  "start_lon " ++ translate_sql_types "float";
                  "record_number " ++ translate_sql_types "int";
                  "cycle_data " ++ translate_sql_types "str" ]
           ++ ", PRIMARY KEY (st, sec_code, sub_code, start_lat, start_lon)"
           ++ ");")%string.
Proof. repeat split. Qed.
End MoraRecords.

(** ** From insert to probe *)

Section InsertThenProbe.
Import Dedup.

(** X18. The row stored for a batch row satisfies the probe built for that
    row's group key, as long as the insert names every group field. *)
Theorem stored_row_satisfies_probe
        (table : string) (fields cols : list string) (r y : pyrow)
        (gk : key) (q : select) (params : list value) :
  (forall f, In f fields -> In f cols) ->
  bind_named cols r = Ok y ->
  group_key fields r = Ok gk ->
  build_select_one table fields gk = Ok (q, params) ->
  select_holds q params y = true.
Proof.
  intros Hsub Hb Hk B.
  rewrite <- (bind_named_stored_key cols fields r y gk Hsub Hb Hk) in B.
  now destruct (build_select_one_matches table fields y q params B).
Qed.

Lemma stored_row_satisfies_probe_witness :
  select_holds
    {| sel_text :=
         "SELECT * FROM time_of_op WHERE x = ? AND y = ? AND z = ? LIMIT 1";
       sel_where := [ {| cond_col := "x"; cond_op := CmpEq |};
                      {| cond_col := "y"; cond_op := CmpEq |};
                      {| cond_col := "z"; cond_op := CmpEq |} ];
       sel_like := None |}
    [VStr "A"; VStr "B"; VStr "C"]
    [("x", VStr "A"); ("y", VStr "B"); ("z", VStr "C"); ("seq_no", VInt 7)]
  = true.
Proof.
  apply (stored_row_satisfies_probe
           "time_of_op" Examples.demo_fields ["x"; "y"; "z"; "seq_no"]
           [("x", VStr "A"); ("y", VStr "B"); ("z", VStr "C");
            ("seq_no", VInt 7); ("dow", VInt 5)]
           [("x", VStr "A"); ("y", VStr "B"); ("z", VStr "C");
            ("seq_no", VInt 7)]
           [VStr "A"; VStr "B"; VStr "C"]).
  - simpl. intuition.
  - reflexivity.
  - reflexivity.
  - reflexivity.
Defined.

Lemma insert_rows_no_unique (or_ignore : bool) (cols : list string)
      (rows : list pyrow) :
  forall (ys db : list pyrow) (c : nat),
    rmap (bind_named cols) rows = Ok ys ->
    insert_rows or_ignore cols rows [] db c
    = (Ok (c + List.length rows), db ++ ys).
Proof.
  induction rows as [|r rows IH]; simpl; intros ys db c H.
  - injection H as <-. now rewrite Nat.add_0_r, app_nil_r.
  - destruct (bind_named cols r) as [y|e]; [|discriminate]. simpl in H.
    destruct (rmap (bind_named cols) rows) as [ys'|e]; [|discriminate].
    simpl in H. injection H as <-.
    rewrite (IH ys' (db ++ [y]) (S c) eq_refl), <- app_assoc.
    simpl. f_equal. f_equal. lia.
Qed.

(** X19. In a table outside the restrictive class that has no UNIQUE index, a
    group whose probe finds no row is stored whole: one SELECT and one
    INSERT OR IGNORE are issued, every row of the group is appended in
    batch order, and the group is not diagnosed. *)
Theorem plain_new_group_stored
        (table : string) (fields : list string)
        (unique_indexes : list (list string)) (cols : list string)
        (gkey : key) (grp_rows ys : list pyrow) (q : select)
        (params : list value) (s : store) :
  Str.contains "restrictive" table = false ->
  build_select_one table fields gkey = Ok (q, params) ->
  sel_where q <> [] ->
  filter (select_holds q params) (st_rows s) = [] ->
  st_uniques s = [] ->
  rmap (bind_named cols) grp_rows = Ok ys ->
  process_group table fields unique_indexes cols (gkey, grp_rows) s
  = (Ok tt,
     {| st_rows := st_rows s ++ ys;
        st_uniques := [];
        st_log := st_log s
                  ++ [ EvSelect (sel_text q) params;
                       EvInsert (insert_sql table cols) grp_rows ] |}).
Proof.
  intros Hplain Hb Hw Hf Hu Hys.
  rewrite (process_group_plain table fields unique_indexes cols gkey grp_rows
                               q params s Hplain Hb Hw), Hf.
  unfold bind, with_connection, executemany_insert.
  cbn [st_rows st_uniques log_event]. rewrite Hu. cbn [map].
  rewrite (insert_rows_no_unique true cols grp_rows ys (st_rows s) 0 Hys).
  cbn [Nat.add]. rewrite Nat.eqb_refl. unfold ret, set_rows, log_event.
  cbn [st_rows st_uniques st_log]. rewrite Hu, <- app_assoc. reflexivity.
Qed.

Lemma plain_new_group_stored_witness :
  process_group "time_of_op" Examples.demo_fields []
                (dict_keys (hd [] Examples.demo_batch))
                ([VStr "A"; VStr "B"; VStr "C"], Examples.demo_batch)
                Examples.empty_store
  = (Ok tt,
     {| st_rows := st_rows Examples.empty_store ++ Examples.demo_batch;
        st_uniques := [];
        st_log :=
          st_log Examples.empty_store
          ++ [ EvSelect
                 "SELECT * FROM time_of_op WHERE x = ? AND y = ? AND z = ? LIMIT 1"
                 [VStr "A"; VStr "B"; VStr "C"];
               EvInsert
                 (insert_sql "time_of_op"
                             (dict_keys (hd [] Examples.demo_batch)))
                 Examples.demo_batch ] |}).
Proof.
  apply (plain_new_group_stored
           "time_of_op" Examples.demo_fields []
           (dict_keys (hd [] Examples.demo_batch))
           [VStr "A"; VStr "B"; VStr "C"] Examples.demo_batch
           Examples.demo_batch
           {| sel_text :=
                "SELECT * FROM time_of_op WHERE x = ? AND y = ? AND z = ? LIMIT 1";
              sel_where := [ {| cond_col := "x"; cond_op := CmpEq |};
                             {| cond_col := "y"; cond_op := CmpEq |};
                             {| cond_col := "z"; cond_op := CmpEq |} ];
              sel_like := None |}
           [VStr "A"; VStr "B"; VStr "C"] Examples.empty_store).
  - reflexivity.
  - reflexivity.
  - discriminate.
  - reflexivity.
  - reflexivity.
  - reflexivity.
Defined.
End InsertThenProbe.
